(** * Stash entries of GitHub Desktop: app/src/lib/git/stash.ts

    A shallow embedding of the stash module and the properties of its
    marker classifier, catalog and mutation sequencer.

    - JavaScript strings are sequences of UTF-16 code units ([jsstring]).
    - Regular expressions are run by a small backtracking matcher that
      follows the ECMAScript continuation semantics for the fragment the
      module uses.
    - The asynchronous functions are written in a state and error monad
      over the external repository ([World]) and the log of the VCS
      invocations issued so far. *)

From Stdlib Require Import Ascii String.
From Stdlib Require Import List NArith ZArith Bool Lia.
Import ListNotations.

Set Implicit Arguments.

(** ** JavaScript strings *)

Module JS.

Definition code_unit := N.
Definition jsstring := list code_unit.

(** An ASCII literal as a JavaScript string. *)
Fixpoint js (s : string) : jsstring :=
  match s with
  | EmptyString => []
  | String c s' => N_of_ascii c :: js s'
  end.

(** [a === b] on strings. *)
Fixpoint str_eqb (a b : jsstring) : bool :=
  match a, b with
  | [], [] => true
  | x :: a', y :: b' => N.eqb x y && str_eqb a' b'
  | _, _ => false
  end.

(** ECMAScript LineTerminator: LF, CR, LS, PS. *)
Definition is_line_terminator (c : code_unit) : bool :=
  (N.eqb c 10 || N.eqb c 13 || N.eqb c 8232 || N.eqb c 8233)%bool.

(** ECMAScript WhiteSpace and LineTerminator, the set stripped by
    [String.prototype.trim]. *)
Definition is_trimmed (c : code_unit) : bool :=
  (N.eqb c 9 || N.eqb c 11 || N.eqb c 12 || N.eqb c 32 || N.eqb c 160
   || N.eqb c 5760 || (N.leb 8192 c && N.leb c 8202) || N.eqb c 8239
   || N.eqb c 8287 || N.eqb c 12288 || N.eqb c 65279
   || is_line_terminator c)%bool.

Fixpoint trimStart (s : jsstring) : jsstring :=
  match s with
  | c :: s' => if is_trimmed c then trimStart s' else s
  | [] => []
  end.

Definition trim (s : jsstring) : jsstring :=
  rev (trimStart (rev (trimStart s))).

(** [s.split(sep)] for a separator of one code unit. *)
Fixpoint split (sep : code_unit) (s : jsstring) : list jsstring :=
  match s with
  | [] => [[]]
  | c :: s' =>
      if N.eqb c sep then [] :: split sep s'
      else match split sep s' with
           | piece :: pieces => (c :: piece) :: pieces
           | [] => [[c]]
           end
  end.

(** [s] starts with [p]; the remainder of [s] when it does. *)
Fixpoint strip_prefix (p s : jsstring) : option jsstring :=
  match p, s with
  | [], _ => Some s
  | x :: p', y :: s' => if N.eqb y x then strip_prefix p' s' else None
  | _ :: _, [] => None
  end.

Definition starts_with (p s : jsstring) : bool :=
  match strip_prefix p s with Some _ => true | None => false end.

(** [p] occurs somewhere in [s]. *)
Fixpoint occurs (p s : jsstring) : bool :=
  starts_with p s ||
  match s with
  | [] => false
  | _ :: s' => occurs p s'
  end.

(** The lines of a text: the pieces between line terminators. *)
Fixpoint lines (s : jsstring) : list jsstring :=
  match s with
  | [] => [[]]
  | c :: s' =>
      if is_line_terminator c then [] :: lines s'
      else match lines s' with
           | l :: ls => (c :: l) :: ls
           | [] => [[c]]
           end
  end.

End JS.
Import JS.

(** ** Regular expressions

    The fragment of ECMAScript patterns used by the module: literal code
    units, [.], [^] under the [m] flag, [$] without the [m] flag, greedy
    [+] on an atom of one code unit, capture groups and concatenation.
    None of the patterns carries the [g] or [y] flag, so [exec] always
    starts at index 0 and keeps no state between calls. *)

Module RegExp.

Inductive atom : Type :=
| AChar (c : code_unit)      (* a literal code unit *)
| ADot.                      (* [.]  any code unit but a line terminator *)

Inductive regex : Type :=
| Empty
| Atom (a : atom)
| BolM                       (* [^] with the [m] flag *)
| Eos                        (* [$] without the [m] flag *)
| Seq (r1 r2 : regex)
| Plus (a : atom)            (* [a+], greedy *)
| Group (n : nat) (r : regex).

(** The pattern of a literal string. *)
Fixpoint lit (s : jsstring) : regex :=
  match s with
  | [] => Empty
  | c :: s' => Seq (Atom (AChar c)) (lit s')
  end.

Definition accepts (a : atom) (c : code_unit) : bool :=
  match a with
  | AChar d => N.eqb c d
  | ADot => negb (is_line_terminator c)
  end.

(** A matcher state: the code unit before the current position, the
    input still to read, and the captures recorded so far. *)
Record MState : Type := mkMState {
  prev : option code_unit;
  rest : jsstring;
  caps : list (nat * jsstring)
}.

Definition Continuation := MState -> option MState.

Definition advance (c : code_unit) (tl : jsstring) (x : MState) : MState :=
  {| prev := Some c; rest := tl; caps := caps x |}.

(** Greedy iteration of a one-unit atom: read one more unit when the atom
    accepts it and the remainder of the pattern then succeeds; otherwise
    stop here.  Every iteration consumes one code unit, so the empty
    iteration check of RepeatMatcher never applies. *)
Fixpoint star_atom (a : atom) (k : Continuation)
         (p : option code_unit) (s : jsstring) (cs : list (nat * jsstring))
  : option MState :=
  let here := k {| prev := p; rest := s; caps := cs |} in
  match s with
  | c :: s' =>
      if accepts a c then
        match star_atom a k (Some c) s' cs with
        | Some z => Some z
        | None => here
        end
      else here
  | [] => here
  end.

Definition at_line_start (x : MState) : bool :=
  match prev x with
  | None => true
  | Some c => is_line_terminator c
  end.

Definition captured (x y : MState) : jsstring :=
  firstn (length (rest x) - length (rest y)) (rest x).

Definition set_cap (n : nat) (v : jsstring) (y : MState) : MState :=
  {| prev := prev y; rest := rest y;
     caps := (n, v) :: filter (fun e => negb (Nat.eqb (fst e) n)) (caps y) |}.

Fixpoint m (r : regex) (k : Continuation) (x : MState) : option MState :=
  match r with
  | Empty => k x
  | Atom a =>
      match rest x with
      | c :: tl => if accepts a c then k (advance c tl x) else None
      | [] => None
      end
  | BolM => if at_line_start x then k x else None
  | Eos => match rest x with [] => k x | _ :: _ => None end
  | Seq r1 r2 => m r1 (m r2 k) x
  | Plus a =>
      match rest x with
      | c :: tl => if accepts a c then star_atom a k (Some c) tl (caps x) else None
      | [] => None
      end
  | Group n r1 => m r1 (fun y => k (set_cap n (captured x y) y)) x
  end.

Fixpoint ngroups (r : regex) : nat :=
  match r with
  | Seq r1 r2 => ngroups r1 + ngroups r2
  | Group _ r1 => S (ngroups r1)
  | _ => 0
  end.

Fixpoint cap_lookup (n : nat) (cs : list (nat * jsstring)) : option jsstring :=
  match cs with
  | [] => None
  | (i, v) :: cs' => if Nat.eqb i n then Some v else cap_lookup n cs'
  end.

(** The array returned by a successful [exec]: the matched text at index
    0, then one slot per capture group ([None] is [undefined]). *)
Definition MatchArray := list (option jsstring).

Definition match_at (r : regex) (p : option code_unit) (s : jsstring)
  : option MatchArray :=
  let x := {| prev := p; rest := s; caps := [] |} in
  match m r Some x with
  | Some y =>
      Some (Some (captured x y)
            :: map (fun i => cap_lookup i (caps y)) (seq 1 (ngroups r)))
  | None => None
  end.

(** Try every start index from left to right, the end of input included. *)
Fixpoint exec_from (r : regex) (p : option code_unit) (s : jsstring)
  : option MatchArray :=
  match match_at r p s with
  | Some arr => Some arr
  | None =>
      match s with
      | [] => None
      | c :: s' => exec_from r (Some c) s'
      end
  end.

Definition exec (r : regex) (s : jsstring) : option MatchArray :=
  exec_from r None s.

End RegExp.
Import RegExp.

(** ** The marker and the classifier *)

Definition DesktopStashEntryMarker : jsstring := js "!!GitHub_Desktop".

(** [/!!GitHub_Desktop<(.+)>$/] *)
Definition desktopStashEntryMessageRe : regex :=
  Seq (lit (js "!!GitHub_Desktop<"))
      (Seq (Group 1 (Plus ADot))
           (Seq (Atom (AChar 62%N)) Eos)).

(** [match === null || match[1].length === 0 ? null : match[1]].  The
    group takes part in every match of the pattern, so slot 1 is never
    [undefined]; the last branch is there to keep the function total. *)
Definition extractBranchFromMessage (message : jsstring) : option jsstring :=
  match exec desktopStashEntryMessageRe message with
  | None => None
  | Some arr =>
      match nth 1 arr None with
      | Some branch => if Nat.eqb (length branch) 0 then None else Some branch
      | None => None
      end
  end.

(** [`${DesktopStashEntryMarker}<${branchName}>`] *)
Definition createDesktopStashMessage (branchName : jsstring) : jsstring :=
  DesktopStashEntryMarker ++ js "<" ++ branchName ++ js ">".

(** [/^error: /m] *)
Definition errorPrefixRe : regex := Seq BolM (lit (js "error: ")).

(** ** Data model *)

Module Repository.
Record t : Type := { path : jsstring }.
End Repository.

Module Branch.
Record t : Type := { name : jsstring }.
End Branch.

Inductive StashedChangesLoadStates : Type := NotLoaded | Loading | Loaded.

Record StashedFileChanges : Type := { kind : StashedChangesLoadStates }.

Module IStashEntry.
Record t : Type := {
  name : jsstring;
  stashSha : jsstring;
  branchName : jsstring;
  tree : jsstring;
  parents : list jsstring;
  files : StashedFileChanges
}.
End IStashEntry.

(** One record of the log parser, with the keys handed to
    [createLogParser]. *)
Module LogEntry.
Record t : Type := {
  name : jsstring;
  stashSha : jsstring;
  message : jsstring;
  tree : jsstring;
  parents : jsstring
}.
End LogEntry.

Record StashResult : Type := {
  desktopEntries : list IStashEntry.t;
  stashEntryCount : Z
}.

(** Error categories of the underlying tool; the module names one. *)
Inductive DugiteError : Type :=
| MergeConflicts
| OtherDugiteError (code : nat).

Definition DugiteError_eqb (a b : DugiteError) : bool :=
  match a, b with
  | MergeConflicts, MergeConflicts => true
  | OtherDugiteError i, OtherDugiteError j => Nat.eqb i j
  | _, _ => false
  end.

(** What a finished process reports. *)
Record ProcessResult : Type := {
  p_exitCode : Z;
  p_stdout : jsstring;
  p_stderr : jsstring
}.

Record IGitResult : Type := {
  exitCode : Z;
  stdout : jsstring;
  stderr : jsstring;
  gitError : option DugiteError
}.

Record IGitExecutionOptions : Type := {
  successExitCodes : list Z;
  expectedErrors : list DugiteError
}.

Definition defaultOpts : IGitExecutionOptions :=
  {| successExitCodes := [0%Z]; expectedErrors := [] |}.

(** [new GitError(result, args)] *)
Record GitError : Type := {
  result : IGitResult;
  args : list jsstring
}.

(** One call of the VCS Executor: arguments, working path and label. *)
Record Invocation : Type := {
  inv_args : list jsstring;
  inv_path : jsstring;
  inv_name : jsstring
}.

(** The two messages the module sends to [log.info]. *)
Inductive LogLine : Type :=
| CreateSoftSuccess (code : Z) (err : jsstring)
| PopSoftSuccess (code : Z).

(** ** Collaborators

    The module's imports that do not live in stash.ts: the process
    runner behind [git], the error classifier of the process library,
    the log parser made by [createLogParser], and the file staging of
    ./update-index.  The repository is an external [World] that every
    process may read and change. *)
Class Collaborators : Type := {
  World : Type;
  spawn : list jsstring -> jsstring -> World -> ProcessResult * World;
  parseError : jsstring -> option DugiteError;
  formatArgs : list jsstring;
  parse : jsstring -> list LogEntry.t;
  FileChange : Type;
  withIncludeAll : FileChange -> bool -> FileChange;
  stageFiles : Repository.t -> list FileChange -> World -> option GitError * World
}.

(** ** The monad of the asynchronous functions *)

Section Monad.
Context {C : Collaborators}.

Record Env : Type := {
  world : World;
  invocations : list Invocation;
  infos : list LogLine
}.

Inductive Outcome (A : Type) : Type :=
| Returned (a : A)
| Raised (e : GitError).

Definition M (A : Type) : Type := Env -> Outcome A * Env.

Definition ret {A : Type} (a : A) : M A := fun e => (Returned a, e).

Definition throw {A : Type} (err : GitError) : M A := fun e => (Raised A err, e).

Definition bind {A B : Type} (c : M A) (k : A -> M B) : M B :=
  fun e =>
    match c e with
    | (Returned a, e') => k a e'
    | (Raised _ err, e') => (Raised B err, e')
    end.

Definition log_info (l : LogLine) : M unit :=
  fun e =>
    (Returned tt,
     {| world := world e; invocations := invocations e; infos := infos e ++ [l] |}).

End Monad.

Arguments Raised {A} e.

Notation "x <- c1 ;; c2" := (bind c1 (fun x => c2))
  (at level 61, c1 at next level, right associativity).
Notation "c1 ;; c2" := (bind c1 (fun _ => c2))
  (at level 61, right associativity).

(** ** The stash module *)

Section Stash.
Context {C : Collaborators}.

(** Modelled from the spec: the VCS Executor [git] of ./core, which is
    not part of stash.ts.  It runs the command against the working path
    and returns exit code, stdout and stderr; an exit code on the
    [successExitCodes] allow-list does not raise, an error category on the
    [expectedErrors] allow-list is tolerated, and everything else raises a
    [GitError] carrying the result and the arguments. *)
Definition git (args : list jsstring) (path name : jsstring)
           (opts : IGitExecutionOptions) : M IGitResult :=
  fun e =>
    let (r, w') := spawn args path (world e) in
    let e' := {| world := w';
                 invocations := invocations e
                   ++ [{| inv_args := args; inv_path := path; inv_name := name |}];
                 infos := infos e |} in
    let acceptableExitCode := existsb (Z.eqb (p_exitCode r)) (successExitCodes opts) in
    let category :=
      if acceptableExitCode then None
      else match parseError (p_stderr r) with
           | Some c => Some c
           | None => parseError (p_stdout r)
           end in
    let res := {| exitCode := p_exitCode r; stdout := p_stdout r;
                  stderr := p_stderr r; gitError := category |} in
    let acceptableError :=
      match category with
      | Some c => existsb (DugiteError_eqb c) (expectedErrors opts)
      | None => false
      end in
    if (acceptableError || acceptableExitCode)%bool
    then (Returned res, e')
    else (Raised {| result := res; args := args |}, e').

(** [await stageFiles(repository, files)] *)
Definition stage (repository : Repository.t) (fs : list FileChange) : M unit :=
  fun e =>
    match stageFiles repository fs (world e) with
    | (None, w') =>
        (Returned tt,
         {| world := w'; invocations := invocations e; infos := infos e |})
    | (Some err, w') =>
        (Raised err,
         {| world := w'; invocations := invocations e; infos := infos e |})
    end.

(** The body of the [for ... of entries] loop of [getStashes]. *)
Definition pushIfDesktop (fs : StashedFileChanges)
           (acc : list IStashEntry.t) (entry : LogEntry.t) : list IStashEntry.t :=
  match extractBranchFromMessage (LogEntry.message entry) with
  | Some branch =>
      acc ++ [{| IStashEntry.name := LogEntry.name entry;
                 IStashEntry.stashSha := LogEntry.stashSha entry;
                 IStashEntry.branchName := branch;
                 IStashEntry.tree := LogEntry.tree entry;
                 IStashEntry.parents :=
                   if Nat.ltb 0 (length (LogEntry.parents entry))
                   then split 32%N (LogEntry.parents entry)
                   else [];
                 IStashEntry.files := fs |}]
  | None => acc
  end.

Definition getStashes (repository : Repository.t) : M StashResult :=
  res <- git ([js "log"; js "-g"] ++ formatArgs ++ [js "refs/stash"])
             (Repository.path repository) (js "getStashEntries")
             {| successExitCodes := [0%Z; 128%Z];
                expectedErrors := expectedErrors defaultOpts |} ;;
  if Z.eqb (exitCode res) 128 then
    ret {| desktopEntries := []; stashEntryCount := 0 |}
  else
    let fs := {| kind := NotLoaded |} in
    let entries := parse (stdout res) in
    let desktop := fold_left (pushIfDesktop fs) entries [] in
    ret {| desktopEntries := desktop;
           stashEntryCount := Z.of_nat (length entries) - 1 |}.

Definition getStashEntryMatchingSha (repository : Repository.t) (sha : jsstring)
  : M (option IStashEntry.t) :=
  stash <- getStashes repository ;;
  ret (find (fun e => str_eqb (IStashEntry.stashSha e) sha) (desktopEntries stash)).

Definition dropDesktopStashEntry (repository : Repository.t) (stashSha : jsstring)
  : M unit :=
  entryToDelete <- getStashEntryMatchingSha repository stashSha ;;
  match entryToDelete with
  | Some entry =>
      let args := [js "stash"; js "drop"; IStashEntry.name entry] in
      git args (Repository.path repository) (js "dropStashEntry") defaultOpts ;;
      ret tt
  | None => ret tt
  end.

Definition moveStashEntry (repository : Repository.t) (entry : IStashEntry.t)
           (branchName : jsstring) : M unit :=
  let message :=
    js "On " ++ branchName ++ js ": " ++ createDesktopStashMessage branchName in
  let parentArgs := flat_map (fun p => [js "-p"; p]) (IStashEntry.parents entry) in
  r <- git ([js "commit-tree"] ++ parentArgs
              ++ [js "-m"; message; js "--no-gpg-sign"; IStashEntry.tree entry])
           (Repository.path repository) (js "moveStashEntryToBranch") defaultOpts ;;
  let commitId := stdout r in
  git [js "stash"; js "store"; js "-m"; message; trim commitId]
      (Repository.path repository) (js "moveStashEntryToBranch") defaultOpts ;;
  dropDesktopStashEntry repository (IStashEntry.stashSha entry).

(** [typeof branch === 'string' ? branch : branch.name] *)
Definition nameOfBranch (branch : Branch.t + jsstring) : jsstring :=
  match branch with
  | inr s => s
  | inl b => Branch.name b
  end.

Definition getLastDesktopStashEntryForBranch (repository : Repository.t)
           (branch : Branch.t + jsstring) : M (option IStashEntry.t) :=
  stash <- getStashes repository ;;
  let branchName := nameOfBranch branch in
  ret (find (fun st => str_eqb (IStashEntry.branchName st) branchName)
            (desktopEntries stash)).

Definition createDesktopStashEntry (repository : Repository.t)
           (branch : Branch.t + jsstring) (untrackedFilesToStage : list FileChange)
  : M bool :=
  let fullySelectedUntrackedFiles :=
    map (fun x => withIncludeAll x true) untrackedFilesToStage in
  stage repository fullySelectedUntrackedFiles ;;
  let branchName := nameOfBranch branch in
  let message := createDesktopStashMessage branchName in
  let args := [js "stash"; js "push"; js "-m"; message] in
  res <- git args (Repository.path repository) (js "createStashEntry")
             {| successExitCodes := [0%Z; 1%Z];
                expectedErrors := expectedErrors defaultOpts |} ;;
  (if Z.eqb (exitCode res) 1 then
     match exec errorPrefixRe (stderr res) with
     | Some matches =>
         if Nat.ltb 0 (length matches)
         then throw {| result := res; args := args |}
         else log_info (CreateSoftSuccess (exitCode res) (stderr res))
     | None => log_info (CreateSoftSuccess (exitCode res) (stderr res))
     end
   else ret tt) ;;
  if str_eqb (stdout res) (js "No local changes to save" ++ [10%N])
  then ret false
  else ret true.

Definition popStashEntry (repository : Repository.t) (stashSha : jsstring)
  : M unit :=
  let expected := [MergeConflicts] in
  let success := [0%Z; 1%Z] in
  stashToPop <- getStashEntryMatchingSha repository stashSha ;;
  match stashToPop with
  | Some entry =>
      let args := [js "stash"; js "pop"; js "--quiet"; IStashEntry.name entry] in
      res <- git args (Repository.path repository) (js "popStashEntry")
                 {| successExitCodes := success; expectedErrors := expected |} ;;
      if Z.eqb (exitCode res) 1 then
        if Nat.ltb 0 (length (stderr res))
        then throw {| result := res; args := args |}
        else
          log_info (PopSoftSuccess (exitCode res)) ;;
          dropDesktopStashEntry repository stashSha
      else ret tt
  | None => ret tt
  end.

End Stash.

(** ** A scripted repository

    A test double for the collaborators: the repository is the list of
    the results its next commands will report, consumed one per command;
    when the script is exhausted a command exits 0 with no output. *)

Module Scripted.

Definition quiet : ProcessResult :=
  {| p_exitCode := 0; p_stdout := []; p_stderr := [] |}.

Definition reply (code : Z) (out err : jsstring) : ProcessResult :=
  {| p_exitCode := code; p_stdout := out; p_stderr := err |}.

Definition run (args : list jsstring) (path : jsstring) (w : list ProcessResult)
  : ProcessResult * list ProcessResult :=
  match w with
  | r :: w' => (r, w')
  | [] => (quiet, [])
  end.

(** The text of one log record: five fields, each closed by NUL. *)
Definition record (name sha message tree parents : jsstring) : jsstring :=
  name ++ [0%N] ++ sha ++ [0%N] ++ message ++ [0%N] ++ tree ++ [0%N]
       ++ parents ++ [0%N].

(** Modelled from the spec: the Entry Parser of ./git-delimiter-parser,
    which is not part of stash.ts.  Fields are separated by a delimiter
    (NUL here), every five fields make a record in stream order, and what
    follows the last full record is the synthetic trailing record, which
    the parser includes in its output. *)
Fixpoint records (fields : list jsstring) : list LogEntry.t :=
  match fields with
  | n :: h :: s :: t :: p :: more =>
      {| LogEntry.name := n; LogEntry.stashSha := h; LogEntry.message := s;
         LogEntry.tree := t; LogEntry.parents := p |} :: records more
  | _ =>
      [{| LogEntry.name := nth 0 fields []; LogEntry.stashSha := nth 1 fields [];
          LogEntry.message := nth 2 fields []; LogEntry.tree := nth 3 fields [];
          LogEntry.parents := nth 4 fields [] |}]
  end.

Definition parseWithTrailer (text : jsstring) : list LogEntry.t :=
  records (split 0%N text).

(** A parser that emits full records only, so that an empty stream
    yields no record at all. *)
Fixpoint fullRecords (fields : list jsstring) : list LogEntry.t :=
  match fields with
  | n :: h :: s :: t :: p :: more =>
      {| LogEntry.name := n; LogEntry.stashSha := h; LogEntry.message := s;
         LogEntry.tree := t; LogEntry.parents := p |} :: fullRecords more
  | _ => []
  end.

Definition parseFullOnly (text : jsstring) : list LogEntry.t :=
  fullRecords (split 0%N text).

Definition collaborators (parser : jsstring -> list LogEntry.t) : Collaborators :=
  {| World := list ProcessResult;
     spawn := run;
     parseError := fun _ => None;
     formatArgs := [js "-z"; js "--format=%gD%x00%H%x00%gs%x00%T%x00%P"];
     parse := parser;
     FileChange := unit;
     withIncludeAll := fun f _ => f;
     stageFiles := fun _ _ w => (None, w) |}.

Definition withTrailer : Collaborators := collaborators parseWithTrailer.

Definition fullOnly : Collaborators := collaborators parseFullOnly.

(** The environment before anything was invoked or logged. *)
Definition start (C : Collaborators) (w : @World C) : @Env C :=
  @Build_Env C w [] [].

Definition repo : Repository.t := {| Repository.path := js "/repo" |}.

(** A stash list with Desktop entries for the branches A, B, A, most
    recent first. *)
Definition logABA : jsstring :=
  record (js "stash@{0}") (js "sha0") (js "!!GitHub_Desktop<A>") (js "tree0") (js "p0 q0")
  ++ record (js "stash@{1}") (js "sha1") (js "On B: !!GitHub_Desktop<B>") (js "tree1") (js "p1")
  ++ record (js "stash@{2}") (js "sha2") (js "!!GitHub_Desktop<A>") (js "tree2") (js "p2").

(** The three owned entries of [logABA]. *)
Definition entry0 : IStashEntry.t :=
  {| IStashEntry.name := js "stash@{0}"; IStashEntry.stashSha := js "sha0";
     IStashEntry.branchName := js "A"; IStashEntry.tree := js "tree0";
     IStashEntry.parents := [js "p0"; js "q0"];
     IStashEntry.files := {| kind := NotLoaded |} |}.

Definition entry1 : IStashEntry.t :=
  {| IStashEntry.name := js "stash@{1}"; IStashEntry.stashSha := js "sha1";
     IStashEntry.branchName := js "B"; IStashEntry.tree := js "tree1";
     IStashEntry.parents := [js "p1"];
     IStashEntry.files := {| kind := NotLoaded |} |}.

Definition entry2 : IStashEntry.t :=
  {| IStashEntry.name := js "stash@{2}"; IStashEntry.stashSha := js "sha2";
     IStashEntry.branchName := js "A"; IStashEntry.tree := js "tree2";
     IStashEntry.parents := [js "p2"];
     IStashEntry.files := {| kind := NotLoaded |} |}.

Definition catalogABA : StashResult :=
  {| desktopEntries := [entry0; entry1; entry2]; stashEntryCount := 3 |}.

(** The log query answers with [logABA]; later commands are quiet. *)
Definition listsABA : list ProcessResult := [reply 0 logABA []].

(** The log query finds no reflog. *)
Definition noReflog : list ProcessResult :=
  [reply 128 [] (js "fatal: bad revision")].

(** A pop of [sha1] that conflicts: exit 1 with empty stderr.  The list
    read again still holds the entry, and the drop succeeds. *)
Definition popConflicts : list ProcessResult :=
  [reply 0 logABA []; reply 1 [] []; reply 0 logABA []; reply 0 [] []].

(** The same pop, but the drop that follows fails. *)
Definition popConflictsDropFails : list ProcessResult :=
  [reply 0 logABA []; reply 1 [] []; reply 0 logABA [];
   reply 1 [] (js "error: could not lock the stash reflog")].


(** A push that finds nothing to stash. *)
Definition nothingToStash : list ProcessResult :=
  [reply 0 (js "No local changes to save" ++ [10%N]) []].

End Scripted.

(** * Vocabulary of the statements *)

(** ** The classifier pattern read as a search *)

Definition marker_open : jsstring := js "!!GitHub_Desktop<".

Definition no_line_terminator (s : jsstring) : bool :=
  forallb (fun c => negb (is_line_terminator c)) s.

(** [s] is one closing bracket after code units that [.] accepts. *)
Fixpoint ends_payload (s : jsstring) : bool :=
  match s with
  | [] => false
  | c :: s' =>
      match s' with
      | [] => N.eqb c 62
      | _ :: _ => negb (is_line_terminator c) && ends_payload s'
      end
  end.

(** The capture of [(.+)>$] on the text that follows the opening
    bracket. *)
Definition payload (t : jsstring) : option jsstring :=
  match t with
  | c :: t' =>
      if negb (is_line_terminator c) && ends_payload t'
      then Some (firstn (length t - 1) t)
      else None
  | [] => None
  end.

Definition owned_at (s : jsstring) : option jsstring :=
  match strip_prefix marker_open s with
  | Some t => payload t
  | None => None
  end.

(** Leftmost start index at which the pattern matches. *)
Fixpoint scan (s : jsstring) : option jsstring :=
  match owned_at s with
  | Some b => Some b
  | None =>
      match s with
      | [] => None
      | _ :: s' => scan s'
      end
  end.

(** ** Lines with the error prefix *)

(** The spec's words: stderr contains a line beginning with [error: ].
    Lines are the pieces between line terminators. *)
Definition has_error_line (text : jsstring) : bool :=
  existsb (starts_with (js "error: ")) (lines text).

(** The search of [/^error: /m] from a position whose previous code unit
    is [p]. *)
Fixpoint error_line_from (p : option code_unit) (s : jsstring) : bool :=
  ((match p with None => true | Some c => is_line_terminator c end)
   && starts_with (js "error: ") s)
  || match s with
     | [] => false
     | c :: s' => error_line_from (Some c) s'
     end.

(** ** Invocations and environments *)

Section Vocabulary.
Context {C : Collaborators}.

Definition logArgs : list jsstring :=
  [js "log"; js "-g"] ++ formatArgs ++ [js "refs/stash"].

Definition logInv (repository : Repository.t) : Invocation :=
  {| inv_args := logArgs; inv_path := Repository.path repository;
     inv_name := js "getStashEntries" |}.

Definition popArgs (entry : IStashEntry.t) : list jsstring :=
  [js "stash"; js "pop"; js "--quiet"; IStashEntry.name entry].

Definition popInv (repository : Repository.t) (entry : IStashEntry.t) : Invocation :=
  {| inv_args := popArgs entry; inv_path := Repository.path repository;
     inv_name := js "popStashEntry" |}.

Definition dropArgs (entry : IStashEntry.t) : list jsstring :=
  [js "stash"; js "drop"; IStashEntry.name entry].

Definition dropInv (repository : Repository.t) (entry : IStashEntry.t) : Invocation :=
  {| inv_args := dropArgs entry; inv_path := Repository.path repository;
     inv_name := js "dropStashEntry" |}.

Definition pushArgs (branchName : jsstring) : list jsstring :=
  [js "stash"; js "push"; js "-m"; createDesktopStashMessage branchName].

Definition pushInv (repository : Repository.t) (branchName : jsstring) : Invocation :=
  {| inv_args := pushArgs branchName; inv_path := Repository.path repository;
     inv_name := js "createStashEntry" |}.

Definition moveMessage (branchName : jsstring) : jsstring :=
  js "On " ++ branchName ++ js ": " ++ createDesktopStashMessage branchName.

Definition commitTreeArgs (entry : IStashEntry.t) (branchName : jsstring)
  : list jsstring :=
  [js "commit-tree"] ++ flat_map (fun p => [js "-p"; p]) (IStashEntry.parents entry)
    ++ [js "-m"; moveMessage branchName; js "--no-gpg-sign"; IStashEntry.tree entry].

Definition storeArgs (branchName commitId : jsstring) : list jsstring :=
  [js "stash"; js "store"; js "-m"; moveMessage branchName; trim commitId].

Definition moveInv (repository : Repository.t) (a : list jsstring) : Invocation :=
  {| inv_args := a; inv_path := Repository.path repository;
     inv_name := js "moveStashEntryToBranch" |}.

(** The environment after one more invocation that left the world [w]. *)
Definition invoked (e : Env) (i : Invocation) (w : World) : Env :=
  {| world := w; invocations := invocations e ++ [i]; infos := infos e |}.

Definition logged (e : Env) (l : LogLine) : Env :=
  {| world := world e; invocations := invocations e; infos := infos e ++ [l] |}.

(** The result [git] hands back for an accepted exit code. *)
Definition accepted (r : ProcessResult) : IGitResult :=
  {| exitCode := p_exitCode r; stdout := p_stdout r; stderr := p_stderr r;
     gitError := None |}.

(** The result carried by the error [git] raises. *)
Definition rejected (r : ProcessResult) : IGitResult :=
  {| exitCode := p_exitCode r; stdout := p_stdout r; stderr := p_stderr r;
     gitError := match parseError (p_stderr r) with
                 | Some c => Some c
                 | None => parseError (p_stdout r)
                 end |}.

(** A [stash drop] command. *)
Definition isDrop (i : Invocation) : bool :=
  match inv_args i with
  | a :: more =>
      str_eqb a (js "stash")
      && match more with
         | b :: _ => str_eqb b (js "drop")
         | [] => false
         end
  | [] => false
  end.

(** A [stash pop] command. *)
Definition isPop (i : Invocation) : bool :=
  match inv_args i with
  | a :: more =>
      str_eqb a (js "stash")
      && match more with
         | b :: _ => str_eqb b (js "pop")
         | [] => false
         end
  | [] => false
  end.

(** What [getStashes] returns for a log that exits 0. *)
Definition catalogOf (r : ProcessResult) : StashResult :=
  {| desktopEntries :=
       fold_left (pushIfDesktop {| kind := NotLoaded |}) (parse (p_stdout r)) [];
     stashEntryCount := Z.of_nat (length (parse (p_stdout r))) - 1 |}.

Definition bySha (sha : jsstring) (st : StashResult) : option IStashEntry.t :=
  find (fun e => str_eqb (IStashEntry.stashSha e) sha) (desktopEntries st).


End Vocabulary.

(** * The rest of the module *)

(** ** The files of a stash entry *)

(** What [parseRawLogWithNumstat] of ./log returns, as far as the module
    reads it. *)
Module ParsedLog.
Record t (F : Type) : Type := { files : list F }.
End ParsedLog.

Section StashedFiles.
Context {C : Collaborators}.
Variable CommittedFileChange : Type.
Variable parseRawLogWithNumstat :
  jsstring -> jsstring -> jsstring -> ParsedLog.t CommittedFileChange.

Definition getStashedFiles (repository : Repository.t) (stashSha : jsstring)
  : M (list CommittedFileChange) :=
  let args := [js "stash"; js "show"; stashSha; js "--raw"; js "--numstat";
               js "-z"; js "--format=format:"; js "--no-show-signature";
               js "--"] in
  r <- git args (Repository.path repository) (js "getStashedFiles") defaultOpts ;;
  ret (ParsedLog.files
         (parseRawLogWithNumstat (stdout r) stashSha (stashSha ++ js "^"))).

End StashedFiles.

(** ** More vocabulary *)

(** [pieces.join(sep)] for a separator of one code unit. *)
Fixpoint join (sep : code_unit) (pieces : list jsstring) : jsstring :=
  match pieces with
  | [] => []
  | [p] => p
  | p :: more => p ++ sep :: join sep more
  end.

(** The classifier accepts the message of a record. *)
Definition isOwned (entry : LogEntry.t) : bool :=
  match extractBranchFromMessage (LogEntry.message entry) with
  | Some _ => true
  | None => false
  end.

Section MoreVocabulary.
Context {C : Collaborators}.

(** The invocations made between the environments [e] and [e']. *)
Definition issued (e e' : Env) : list Invocation :=
  skipn (length (invocations e)) (invocations e').

(** The drop command that [dropDesktopStashEntry] owes in the
    environment [e]: the drop of the first entry with the sha in the list
    a log query reads there, by the name it has in that list; nothing
    when the query fails or the list has no such entry. *)
Definition dropCommand (repository : Repository.t) (sha : jsstring) (e : Env)
  : list Invocation :=
  match fst (getStashes repository e) with
  | Returned st =>
      match bySha sha st with
      | Some entry => [dropInv repository entry]
      | None => []
      end
  | Raised _ => []
  end.

Definition showArgs (stashSha : jsstring) : list jsstring :=
  [js "stash"; js "show"; stashSha; js "--raw"; js "--numstat";
   js "-z"; js "--format=format:"; js "--no-show-signature"; js "--"].

Definition showInv (repository : Repository.t) (stashSha : jsstring) : Invocation :=
  {| inv_args := showArgs stashSha; inv_path := Repository.path repository;
     inv_name := js "getStashedFiles" |}.

(** A command that changes the stash list: everything but the log and
    show queries. *)
Definition isQuery (i : Invocation) : bool :=
  match inv_args i with
  | a :: more =>
      str_eqb a (js "log")
      || (str_eqb a (js "stash")
          && match more with
             | b :: _ => str_eqb b (js "show")
             | [] => false
             end)
  | [] => false
  end.

End MoreVocabulary.

(** ** More scripts for the scripted repository *)

Module MoreScripts.
Import Scripted.

(** The stash list after a move of [sha1] to the branch A: the stored
    entry is on top and the original entries have moved down one slot. *)
Definition logAfterStore : jsstring :=
  record (js "stash@{0}") (js "c0ffee") (js "On A: !!GitHub_Desktop<A>")
         (js "tree1") (js "p1")
  ++ record (js "stash@{1}") (js "sha0") (js "!!GitHub_Desktop<A>")
            (js "tree0") (js "p0 q0")
  ++ record (js "stash@{2}") (js "sha1") (js "On B: !!GitHub_Desktop<B>")
            (js "tree1") (js "p1").

(** [entry1] as the list shows it after the store. *)
Definition entry1Shifted : IStashEntry.t :=
  {| IStashEntry.name := js "stash@{2}"; IStashEntry.stashSha := js "sha1";
     IStashEntry.branchName := js "B"; IStashEntry.tree := js "tree1";
     IStashEntry.parents := [js "p1"];
     IStashEntry.files := {| kind := NotLoaded |} |}.

Definition catalogAfterStore : StashResult :=
  {| desktopEntries :=
       [{| IStashEntry.name := js "stash@{0}"; IStashEntry.stashSha := js "c0ffee";
           IStashEntry.branchName := js "A"; IStashEntry.tree := js "tree1";
           IStashEntry.parents := [js "p1"];
           IStashEntry.files := {| kind := NotLoaded |} |};
        {| IStashEntry.name := js "stash@{1}"; IStashEntry.stashSha := js "sha0";
           IStashEntry.branchName := js "A"; IStashEntry.tree := js "tree0";
           IStashEntry.parents := [js "p0"; js "q0"];
           IStashEntry.files := {| kind := NotLoaded |} |};
        entry1Shifted];
     stashEntryCount := 3 |}.

(** A move whose three steps succeed. *)
Definition moveSucceeds : list ProcessResult :=
  [reply 0 (js "c0ffee" ++ [10%N]) []; reply 0 [] [];
   reply 0 logAfterStore []; reply 0 [] []].

(** A move whose commit-tree fails. *)
Definition commitTreeFails : list ProcessResult :=
  [reply 128 [] (js "fatal: not a valid object name tree1")].

(** A push that exits with a code outside the allow-list although it
    prints the no-changes text. *)
Definition pushExitsTwo : list ProcessResult :=
  [reply 2 (js "No local changes to save" ++ [10%N]) []].

(** A pop that applies cleanly. *)
Definition popApplies : list ProcessResult :=
  [reply 0 logABA []; reply 0 [] []].

(** A drop that the tool refuses. *)
Definition dropRefused : list ProcessResult :=
  [reply 0 logABA []; reply 1 [] (js "error: could not lock the stash reflog")].

Definition stagingError : GitError :=
  {| result := {| exitCode := 128; stdout := [];
                  stderr := js "fatal: unable to write index";
                  gitError := None |};
     args := [js "update-index"] |}.

(** Collaborators whose file staging always fails. *)
Definition stagingFails : Collaborators :=
  {| World := list ProcessResult;
     spawn := run;
     parseError := fun _ => None;
     formatArgs := [js "-z"; js "--format=%gD%x00%H%x00%gs%x00%T%x00%P"];
     parse := parseWithTrailer;
     FileChange := unit;
     withIncludeAll := fun f _ => f;
     stageFiles := fun _ _ w => (Some stagingError, w) |}.



(** A numstat parser that keeps what it was handed. *)
Definition echoParser (out primary secondary : jsstring)
  : ParsedLog.t (jsstring * jsstring * jsstring) :=
  {| ParsedLog.files := [(out, primary, secondary)] |}.

End MoreScripts.

(** * Properties *)

(** ** Strings *)

Lemma str_eqb_eq (a b : jsstring) : str_eqb a b = true <-> a = b.
Proof.
  revert b; induction a as [|x a IH]; intros [|y b]; simpl; split;
    try congruence; try discriminate; auto.
  - intros H. apply andb_true_iff in H as [Hx Hab].
    apply N.eqb_eq in Hx. apply IH in Hab. congruence.
  - intros H. injection H as -> ->. rewrite N.eqb_refl. simpl. now apply IH.
Qed.

Lemma str_eqb_refl (a : jsstring) : str_eqb a a = true.
Proof. now apply str_eqb_eq. Qed.

Lemma str_eqb_neq (a b : jsstring) : str_eqb a b = false <-> a <> b.
Proof.
  split.
  - intros H E. apply str_eqb_eq in E. congruence.
  - intros H. destruct (str_eqb a b) eqn:E; auto.
    apply str_eqb_eq in E. contradiction.
Qed.

Lemma strip_prefix_app (p s : jsstring) : strip_prefix p (p ++ s) = Some s.
Proof. induction p as [|x p IH]; simpl; auto. now rewrite N.eqb_refl. Qed.

Lemma strip_prefix_Some (p s t : jsstring) :
  strip_prefix p s = Some t -> s = p ++ t.
Proof.
  revert s; induction p as [|x p IH]; intros [|y s]; simpl; try congruence.
  destruct (N.eqb y x) eqn:E; try discriminate.
  apply N.eqb_eq in E. subst y. intros H. f_equal. now apply IH.
Qed.

Lemma starts_with_app (p s : jsstring) : starts_with p (p ++ s) = true.
Proof. unfold starts_with. now rewrite strip_prefix_app. Qed.

(** A prefix that avoids the code unit [c] cannot reach across [c]. *)
Lemma starts_with_before_sep (p u v : jsstring) (c : code_unit) :
  existsb (N.eqb c) p = false ->
  starts_with p (u ++ c :: v) = true -> starts_with p u = true.
Proof.
  unfold starts_with.
  revert u; induction p as [|a p IH]; intros u Hc; simpl in *; auto.
  apply orb_false_iff in Hc as [Hca Hcp].
  destruct u as [|y u]; simpl.
  - now rewrite Hca.
  - destruct (N.eqb y a); auto.
Qed.

Example trim_commit_id : trim (js "c0ffee" ++ [10%N]) = js "c0ffee".
Proof. reflexivity. Qed.

Example split_parents : split 32%N (js "p0 q0") = [js "p0"; js "q0"].
Proof. reflexivity. Qed.

Example split_empty : split 32%N [] = [[]].
Proof. reflexivity. Qed.

(** ** The matcher on literals *)

Lemma m_lit (s : jsstring) (k : Continuation) (x : MState) :
  m (lit s) k x =
  match strip_prefix s (rest x) with
  | Some t => k {| prev := fold_left (fun _ c => Some c) s (prev x);
                   rest := t; caps := caps x |}
  | None => None
  end.
Proof.
  revert x; induction s as [|c s IH]; intros [p r cs]; simpl.
  - reflexivity.
  - destruct r as [|y r]; auto.
    destruct (N.eqb y c) eqn:E; auto.
    apply N.eqb_eq in E. subst y.
    rewrite IH. reflexivity.
Qed.

(** ** The classifier pattern *)

Lemma ends_payload_spec (s : jsstring) :
  ends_payload s = true <->
  exists b, s = b ++ [62%N] /\ no_line_terminator b = true.
Proof.
  induction s as [|c s IH].
  - simpl. split; [discriminate|]. intros [[|? ?] [H _]]; discriminate.
  - cbn [ends_payload]. destruct s as [|d s].
    + split.
      * intros H. apply N.eqb_eq in H. subst. exists []. auto.
      * intros [[|y b] [H _]].
        -- injection H as ->. reflexivity.
        -- injection H as _ H. destruct b; discriminate.
    + rewrite andb_true_iff, IH. split.
      * intros [Hc [b [Hb Hn]]]. exists (c :: b). rewrite Hb. simpl.
        now rewrite Hc, Hn.
      * intros [[|y b] [H Hn]]; [discriminate|].
        injection H as -> H. simpl in Hn. apply andb_true_iff in Hn as [Hy Hn].
        split; auto. exists b; auto.
Qed.

Lemma firstn_pred_snoc (b : jsstring) (c : code_unit) :
  firstn (length (b ++ [c]) - 1) (b ++ [c]) = b.
Proof.
  rewrite length_app. simpl.
  replace (length b + 1 - 1) with (length b + 0) by lia.
  rewrite firstn_app_2. simpl. apply app_nil_r.
Qed.

Lemma payload_spec (t b : jsstring) :
  payload t = Some b <->
  t = b ++ [62%N] /\ b <> [] /\ no_line_terminator b = true.
Proof.
  destruct t as [|c t'].
  - simpl. split; [discriminate|]. intros [H _]. destruct b; discriminate.
  - unfold payload.
    destruct (negb (is_line_terminator c) && ends_payload t') eqn:E.
    + apply andb_true_iff in E as [Hc He].
      apply ends_payload_spec in He as [b' [-> Hn]].
      change (c :: b' ++ [62%N]) with ((c :: b') ++ [62%N]).
      rewrite firstn_pred_snoc. split.
      * intros H. injection H as <-. repeat split; try discriminate.
        simpl. now rewrite Hc, Hn.
      * intros [H _]. apply app_inj_tail in H as [-> _]. reflexivity.
    + split; [discriminate|]. intros [H [Hne Hn]].
      destruct b as [|y b]; [contradiction|].
      injection H as -> ->. simpl in Hn. apply andb_true_iff in Hn as [Hy Hn].
      rewrite Hy in E. simpl in E.
      assert (ends_payload (b ++ [62%N]) = true)
        by (apply ends_payload_spec; eauto).
      congruence.
Qed.

(** The greedy [.+] in front of a continuation that only succeeds on the
    closing bracket at the end of input. *)
Lemma star_dot_close (k : Continuation) (f : list (nat * jsstring) -> MState) :
  (forall p s cs,
      k {| prev := p; rest := s; caps := cs |} =
      if str_eqb s [62%N] then Some (f cs) else None) ->
  forall s p cs,
    star_atom ADot k p s cs = if ends_payload s then Some (f cs) else None.
Proof.
  intros Hk. induction s as [|c s IH]; intros p cs.
  - simpl. rewrite Hk. reflexivity.
  - cbn [star_atom ends_payload accepts]. rewrite IH, Hk.
    destruct s as [|d s].
    + cbn [ends_payload str_eqb]. rewrite andb_true_r.
      destruct (negb (is_line_terminator c)); reflexivity.
    + replace (str_eqb (c :: d :: s) [62%N]) with false
        by (simpl; now rewrite andb_false_r).
      clear IH. generalize (ends_payload (d :: s)) as ep. intros ep.
      destruct (negb (is_line_terminator c)), ep; reflexivity.
Qed.

Lemma match_at_marker (p : option code_unit) (s : jsstring) :
  match_at desktopStashEntryMessageRe p s =
  match owned_at s with
  | Some b => Some [Some s; Some b]
  | None => None
  end.
Proof.
  unfold match_at, desktopStashEntryMessageRe, owned_at.
  cbn [m]. rewrite m_lit. cbn [rest caps prev].
  fold marker_open.
  destruct (strip_prefix marker_open s) as [t|] eqn:Es; auto.
  cbn [m rest caps]. unfold payload.
  destruct t as [|c t']; auto.
  cbn [accepts].
  destruct (negb (is_line_terminator c)) eqn:Ec; auto.
  set (x0 := {| prev := _; rest := c :: t'; caps := [] |}).
  rewrite (@star_dot_close _
    (fun cs => {| prev := Some 62%N; rest := [];
                  caps := (1, firstn (length (c :: t') - 1) (c :: t'))
                            :: filter (fun e => negb (Nat.eqb (fst e) 1)) cs |})).
  - simpl andb. destruct (ends_payload t'); auto.
    cbn [ngroups lit]. unfold captured. cbn [rest caps].
    assert (Hg : ngroups (lit marker_open) = 0) by reflexivity.
    rewrite Hg. simpl length at 2. rewrite Nat.sub_0_r, firstn_all.
    reflexivity.
  - intros q r cs. cbn [m rest].
    destruct r as [|y [|z r]]; simpl; auto.
    + destruct (N.eqb y 62) eqn:Ey; simpl; auto.
      apply N.eqb_eq in Ey. subst y. reflexivity.
    + rewrite andb_false_r. now destruct (N.eqb y 62).
Qed.

Lemma owned_at_nonempty (s b : jsstring) : owned_at s = Some b -> b <> [].
Proof.
  unfold owned_at. destruct (strip_prefix marker_open s); [|discriminate].
  intros H. now apply payload_spec in H.
Qed.

Lemma extract_scan_from (p : option code_unit) (s : jsstring) :
  match exec_from desktopStashEntryMessageRe p s with
  | None => None
  | Some arr =>
      match nth 1 arr None with
      | Some branch => if Nat.eqb (length branch) 0 then None else Some branch
      | None => None
      end
  end = scan s.
Proof.
  revert p; induction s as [|c s IH]; intros p;
    cbn [exec_from scan]; rewrite match_at_marker.
  - destruct (owned_at []) as [b|] eqn:E; auto.
    apply owned_at_nonempty in E. cbn [nth].
    destruct b; [contradiction|reflexivity].
  - destruct (owned_at (c :: s)) as [b|] eqn:E; auto.
    apply owned_at_nonempty in E. cbn [nth].
    destruct b; [contradiction|reflexivity].
Qed.

Lemma extract_scan (s : jsstring) : extractBranchFromMessage s = scan s.
Proof. apply extract_scan_from. Qed.

Lemma owned_at_here (b : jsstring) :
  b <> [] -> no_line_terminator b = true ->
  owned_at (marker_open ++ b ++ [62%N]) = Some b.
Proof.
  intros Hne Hn. unfold owned_at. rewrite strip_prefix_app.
  apply payload_spec. auto.
Qed.

Lemma scan_here (b : jsstring) :
  b <> [] -> no_line_terminator b = true ->
  scan (marker_open ++ b ++ [62%N]) = Some b.
Proof.
  intros Hne Hn.
  assert (H := owned_at_here Hne Hn). revert H.
  generalize (marker_open ++ b ++ [62%N]). intros s H.
  destruct s; cbn [scan]; now rewrite H.
Qed.

Lemma scan_sound (s b : jsstring) :
  scan s = Some b ->
  exists pre, s = pre ++ marker_open ++ b ++ [62%N]
              /\ b <> [] /\ no_line_terminator b = true.
Proof.
  assert (Hat : forall s, owned_at s = Some b ->
                  s = marker_open ++ b ++ [62%N]
                  /\ b <> [] /\ no_line_terminator b = true).
  { intros s0. unfold owned_at.
    destruct (strip_prefix marker_open s0) as [t|] eqn:E; [|discriminate].
    intros H. apply payload_spec in H as [-> H].
    apply strip_prefix_Some in E. auto. }
  induction s as [|c s IH]; cbn [scan].
  - destruct (owned_at []) eqn:E; [|discriminate].
    intros H. injection H as ->. exists []. now apply Hat.
  - destruct (owned_at (c :: s)) eqn:E.
    + intros H. injection H as ->. exists []. now apply Hat.
    + intros H. destruct (IH H) as [pre [-> Hb]]. now exists (c :: pre).
Qed.

Lemma scan_None (s : jsstring) :
  scan s = None <->
  (forall pre b, s = pre ++ marker_open ++ b ++ [62%N] ->
                 b = [] \/ no_line_terminator b = false).
Proof.
  split.
  - intros Hs pre. revert s Hs. induction pre as [|x pre IH]; intros s Hs b ->.
    + destruct b as [|y b]; auto. right.
      destruct (no_line_terminator (y :: b)) eqn:Hn; auto.
      change ([] ++ marker_open ++ (y :: b) ++ [62%N])
        with (marker_open ++ (y :: b) ++ [62%N]) in Hs.
      rewrite scan_here in Hs; [discriminate|discriminate|auto].
    + cbn [app scan] in Hs.
      destruct (owned_at _); [discriminate|].
      eapply IH; eauto.
  - intros H. destruct (scan s) as [b|] eqn:E; auto.
    apply scan_sound in E as [pre [Hs [Hne Hn]]].
    destruct (H _ _ Hs) as [Hb|Hb]; [contradiction|].
    rewrite Hn in Hb. discriminate.
Qed.

Lemma scan_skip (c : code_unit) (s : jsstring) :
  starts_with marker_open (c :: s) = false -> scan (c :: s) = scan s.
Proof.
  unfold starts_with. cbn [scan]. unfold owned_at.
  now destruct (strip_prefix marker_open (c :: s)).
Qed.

(** A stretch of text without the opening marker, closed by a code unit
    that the marker does not contain, is skipped by the search. *)
Lemma scan_skip_free (x r : jsstring) (c : code_unit) :
  occurs marker_open x = false ->
  existsb (N.eqb c) marker_open = false ->
  scan (x ++ c :: r) = scan (c :: r).
Proof.
  intros Hx Hc. induction x as [|y x IH]; auto.
  cbn [occurs] in Hx. apply orb_false_iff in Hx as [Hy Hx].
  change ((y :: x) ++ c :: r) with (y :: (x ++ c :: r)).
  rewrite scan_skip; auto.
  destruct (starts_with marker_open (y :: x ++ c :: r)) eqn:E; auto.
  change (y :: x ++ c :: r) with ((y :: x) ++ c :: r) in E.
  apply starts_with_before_sep in E; auto. congruence.
Qed.

Lemma scan_extended (x t : jsstring) :
  occurs marker_open x = false ->
  scan (js "On " ++ x ++ js ": " ++ t) = scan t.
Proof.
  intros Hx.
  change (js "On " ++ x ++ js ": " ++ t)
    with (79 :: 110 :: 32 :: (x ++ 58 :: 32 :: t))%N.
  rewrite !scan_skip by reflexivity.
  rewrite scan_skip_free by (auto; reflexivity).
  now rewrite !scan_skip by reflexivity.
Qed.

(** Whatever the classifier returns is the non-empty, single-line text
    between the opening marker and the bracket that ends the message. *)
Lemma classifier_sound (s b : jsstring) :
  extractBranchFromMessage s = Some b ->
  exists pre, s = pre ++ marker_open ++ b ++ [62%N]
              /\ b <> [] /\ no_line_terminator b = true.
Proof. rewrite extract_scan. apply scan_sound. Qed.

(** Slot 1 of a match of the classifier pattern is always filled. *)
Lemma exec_marker_slot (p : option code_unit) (s : jsstring) (arr : MatchArray) :
  exec_from desktopStashEntryMessageRe p s = Some arr ->
  exists whole b, arr = [Some whole; Some b].
Proof.
  revert p; induction s as [|c s IH]; intros p;
    cbn [exec_from]; rewrite match_at_marker.
  - destruct (owned_at []); [|discriminate].
    intros H. injection H as <-. eauto.
  - destruct (owned_at (c :: s)).
    + intros H. injection H as <-. eauto.
    + apply IH.
Qed.

Example extract_plain :
  extractBranchFromMessage (js "!!GitHub_Desktop<master>") = Some (js "master").
Proof. reflexivity. Qed.

Example extract_on_prefix :
  extractBranchFromMessage (js "On master: !!GitHub_Desktop<feature/a>")
  = Some (js "feature/a").
Proof. reflexivity. Qed.

Example extract_foreign :
  extractBranchFromMessage (js "WIP on master: 1234567 fix things") = None.
Proof. reflexivity. Qed.

Example extract_greedy_bracket :
  extractBranchFromMessage (js "!!GitHub_Desktop<a>b>") = Some (js "a>b").
Proof. reflexivity. Qed.

Example extract_needs_end_of_input :
  extractBranchFromMessage (js "!!GitHub_Desktop<a> ") = None.
Proof. reflexivity. Qed.

(** ** C1: the classifier on the marker grammars *)

(** C1, as amended.  On [!!GitHub_Desktop<B>], and on
    [On X: !!GitHub_Desktop<B>] when [X] does not itself contain
    [!!GitHub_Desktop<], the classifier returns exactly [B], for every
    non-empty [B] free of line terminators (LF, CR, U+2028, U+2029).  It
    returns null on the empty payload [!!GitHub_Desktop<>], also behind
    [On X: ], and on every message that does not end in
    [!!GitHub_Desktop<b>] for some non-empty [b] free of line
    terminators, whatever text precedes the marker. *)
Theorem classifier_returns_payload (X B msg : jsstring) :
  B <> [] ->
  no_line_terminator B = true ->
  occurs (js "!!GitHub_Desktop<") X = false ->
  (forall P b, msg = P ++ js "!!GitHub_Desktop<" ++ b ++ js ">" ->
               b = [] \/ no_line_terminator b = false) ->
  extractBranchFromMessage (js "!!GitHub_Desktop<" ++ B ++ js ">") = Some B
  /\ extractBranchFromMessage
       (js "On " ++ X ++ js ": " ++ js "!!GitHub_Desktop<" ++ B ++ js ">") = Some B
  /\ extractBranchFromMessage (js "!!GitHub_Desktop<>") = None
  /\ extractBranchFromMessage
       (js "On " ++ X ++ js ": " ++ js "!!GitHub_Desktop<>") = None
  /\ extractBranchFromMessage msg = None.
Proof.
  intros HB HLT HX Hmsg. rewrite !extract_scan.
  split; [|split; [|split; [|split]]].
  - apply (scan_here HB HLT).
  - rewrite scan_extended by exact HX. apply (scan_here HB HLT).
  - reflexivity.
  - rewrite scan_extended by exact HX. reflexivity.
  - apply scan_None. exact Hmsg.
Qed.

Lemma classifier_returns_payload_witness :
  let X := js "master" in
  let B := js "feature/a" in
  let msg := js "WIP on master: 1234567 fix things" in
  B <> [] /\ no_line_terminator B = true
  /\ occurs (js "!!GitHub_Desktop<") X = false
  /\ extractBranchFromMessage (js "!!GitHub_Desktop<" ++ B ++ js ">") = Some B
  /\ extractBranchFromMessage
       (js "On " ++ X ++ js ": " ++ js "!!GitHub_Desktop<" ++ B ++ js ">") = Some B
  /\ extractBranchFromMessage msg = None.
Proof.
  intros X B msg.
  assert (HB : B <> []) by discriminate.
  assert (HLT : no_line_terminator B = true) by reflexivity.
  assert (HX : occurs (js "!!GitHub_Desktop<") X = false) by reflexivity.
  assert (Hmsg : forall P b, msg = P ++ js "!!GitHub_Desktop<" ++ b ++ js ">" ->
                             b = [] \/ no_line_terminator b = false).
  { apply scan_None. reflexivity. }
  destruct (@classifier_returns_payload X B msg HB HLT HX Hmsg)
    as [H1 [H2 [_ [_ H5]]]].
  exact (conj HB (conj HLT (conj HX (conj H1 (conj H2 H5))))).
Defined.

(** C1 as stated fails: behind [On X: ] with a branch [X] that contains
    the opening marker, the leftmost match wins and the classifier returns
    a text that is not [B]. *)
Lemma classifier_grammar_counterexample :
  let X := js "!!GitHub_Desktop<z" in
  let B := js "b" in
  B <> []
  /\ extractBranchFromMessage
       (js "On " ++ X ++ js ": " ++ js "!!GitHub_Desktop<" ++ B ++ js ">")
     = Some (js "z: !!GitHub_Desktop<b")
  /\ extractBranchFromMessage
       (js "On " ++ X ++ js ": " ++ js "!!GitHub_Desktop<" ++ B ++ js ">")
     <> Some B.
Proof.
  cbv zeta. split; [discriminate|]. split; [reflexivity|discriminate].
Qed.

(** Two more departures from C1 as stated: a payload with a line feed is
    not recognised, and text in front of the marker is ignored. *)
Example classifier_rejects_line_feed :
  extractBranchFromMessage (js "!!GitHub_Desktop<" ++ [97; 10; 98]%N ++ js ">") = None.
Proof. reflexivity. Qed.

Example classifier_ignores_leading_text :
  extractBranchFromMessage (js "WIP !!GitHub_Desktop<b>") = Some (js "b").
Proof. reflexivity. Qed.

(** ** C9: the message constructor and the classifier *)

(** C9, as amended.  For every non-empty branch name [b] that contains no
    line terminator (LF, CR, U+2028, U+2029), classifying the message
    built for [b] returns exactly [b]; brackets inside [b] do not
    matter. *)
Theorem message_round_trip (b : jsstring) :
  b <> [] ->
  no_line_terminator b = true ->
  extractBranchFromMessage (createDesktopStashMessage b) = Some b.
Proof.
  intros Hne Hn. rewrite extract_scan.
  change (createDesktopStashMessage b) with (marker_open ++ b ++ [62%N]).
  now apply scan_here.
Qed.

Lemma message_round_trip_witness :
  let b := js "fix<a>/b>" in
  b <> [] /\ no_line_terminator b = true
  /\ extractBranchFromMessage (createDesktopStashMessage b) = Some b.
Proof.
  intros b.
  assert (Hne : b <> []) by discriminate.
  assert (Hn : no_line_terminator b = true) by reflexivity.
  exact (conj Hne (conj Hn (@message_round_trip b Hne Hn))).
Defined.

(** C9 as stated fails: a carriage return is not a newline character,
    yet [.] refuses it and the round trip ends in null. *)
Lemma message_round_trip_counterexample :
  let b := [13%N] in
  b <> [] /\ ~ In 10%N b
  /\ extractBranchFromMessage (createDesktopStashMessage b) = None.
Proof.
  cbv zeta. split; [discriminate|]. split; [|reflexivity].
  intros [H|[]]. discriminate.
Qed.

(** ** The error prefix pattern *)

Lemma starts_with_cons (a c : code_unit) (e s : jsstring) :
  starts_with (a :: e) (c :: s) = (N.eqb c a && starts_with e s)%bool.
Proof. unfold starts_with. simpl. now destruct (N.eqb c a). Qed.

Lemma starts_with_nil_r (a : code_unit) (e : jsstring) :
  starts_with (a :: e) [] = false.
Proof. reflexivity. Qed.

Lemma lines_cons (c : code_unit) (s : jsstring) :
  lines (c :: s) =
  if is_line_terminator c then [] :: lines s
  else (c :: hd [] (lines s)) :: tl (lines s).
Proof.
  cbn [lines]. destruct (is_line_terminator c); auto.
  now destruct (lines s).
Qed.

Lemma lines_hd_tl (s : jsstring) : lines s = hd [] (lines s) :: tl (lines s).
Proof.
  destruct s as [|c s]; [reflexivity|].
  rewrite lines_cons. now destruct (is_line_terminator c).
Qed.

(** A text without line terminators starts [s] exactly when it starts
    the first line of [s]. *)
Lemma starts_with_first_line (e s : jsstring) :
  no_line_terminator e = true ->
  starts_with e s = starts_with e (hd [] (lines s)).
Proof.
  revert s; induction e as [|a e IH]; intros s He; [reflexivity|].
  simpl in He. apply andb_true_iff in He as [Ha He].
  destruct s as [|c s]; [reflexivity|].
  rewrite lines_cons. destruct (is_line_terminator c) eqn:Ec.
  - cbn [hd]. rewrite starts_with_cons, starts_with_nil_r.
    destruct (N.eqb c a) eqn:E; auto.
    apply N.eqb_eq in E. subst c. rewrite Ec in Ha. discriminate.
  - cbn [hd]. rewrite !starts_with_cons. now rewrite (IH s He).
Qed.

Lemma error_line_from_lines (p : option code_unit) (s : jsstring) :
  error_line_from p s =
  (((match p with None => true | Some c => is_line_terminator c end)
    && starts_with (js "error: ") (hd [] (lines s)))
   || existsb (starts_with (js "error: ")) (tl (lines s)))%bool.
Proof.
  revert p; induction s as [|c s IH]; intros p.
  - reflexivity.
  - cbn [error_line_from]. rewrite IH, lines_cons.
    rewrite (@starts_with_first_line (js "error: ") (c :: s)) by reflexivity.
    rewrite lines_cons.
    destruct (is_line_terminator c) eqn:Ec; cbn [hd tl existsb].
    + rewrite andb_true_l.
      replace (starts_with (js "error: ") []) with false by reflexivity.
      rewrite andb_false_r. rewrite (lines_hd_tl s) at 3. reflexivity.
    + rewrite andb_false_l, orb_false_l. reflexivity.
Qed.

Lemma error_line_from_start (s : jsstring) :
  error_line_from None s = has_error_line s.
Proof.
  rewrite error_line_from_lines. unfold has_error_line.
  rewrite (lines_hd_tl s) at 3. reflexivity.
Qed.

Lemma match_at_error_prefix (p : option code_unit) (s : jsstring) :
  match_at errorPrefixRe p s =
  if ((match p with None => true | Some c => is_line_terminator c end)
      && starts_with (js "error: ") s)%bool
  then Some [Some (js "error: ")]
  else None.
Proof.
  unfold match_at, errorPrefixRe. cbn [m]. unfold at_line_start. cbn [prev].
  destruct (match p with None => true | Some c => is_line_terminator c end);
    [|reflexivity].
  rewrite m_lit. cbn [rest caps]. unfold starts_with. rewrite andb_true_l.
  destruct (strip_prefix (js "error: ") s) as [t|] eqn:E; [|reflexivity].
  apply strip_prefix_Some in E. subst s.
  unfold captured. cbn [rest ngroups lit]. rewrite length_app.
  replace (length (js "error: ") + length t - length t)
    with (length (js "error: ") + 0) by lia.
  rewrite firstn_app_2. reflexivity.
Qed.

(** [errorPrefixRe.exec(text)] finds a match exactly when some line of
    the text begins with [error: ], and the array it returns is never
    empty. *)
Lemma exec_error_prefix_from (p : option code_unit) (s : jsstring) :
  exec_from errorPrefixRe p s =
  if error_line_from p s then Some [Some (js "error: ")] else None.
Proof.
  revert p; induction s as [|c s IH]; intros p;
    cbn [exec_from error_line_from]; rewrite match_at_error_prefix.
  - destruct (_ && _)%bool; reflexivity.
  - destruct (_ && _)%bool; [reflexivity|]. rewrite IH. reflexivity.
Qed.

Lemma exec_error_prefix (s : jsstring) :
  exec errorPrefixRe s =
  if has_error_line s then Some [Some (js "error: ")] else None.
Proof.
  unfold exec. rewrite exec_error_prefix_from. now rewrite error_line_from_start.
Qed.

Example error_line_after_carriage_return :
  exec errorPrefixRe (js "warning: x" ++ [13%N] ++ js "error: y")
  = Some [Some (js "error: ")].
Proof. reflexivity. Qed.

Example error_inside_a_line :
  exec errorPrefixRe (js "warning: error: y") = None.
Proof. reflexivity. Qed.

(** ** The executor and the catalog *)

Unset Implicit Arguments.

Section StashProperties.
Context {C : Collaborators}.

Lemma git_accepted (a : list jsstring) (path name : jsstring)
      (opts : IGitExecutionOptions) (e : Env) (r : ProcessResult) (w : World) :
  spawn a path (world e) = (r, w) ->
  existsb (Z.eqb (p_exitCode r)) (successExitCodes opts) = true ->
  git a path name opts e =
  (Returned (accepted r),
   invoked e {| inv_args := a; inv_path := path; inv_name := name |} w).
Proof.
  intros Hs Hok. unfold git. rewrite Hs, Hok. reflexivity.
Qed.

Lemma git_rejected (a : list jsstring) (path name : jsstring)
      (opts : IGitExecutionOptions) (e : Env) (r : ProcessResult) (w : World) :
  spawn a path (world e) = (r, w) ->
  existsb (Z.eqb (p_exitCode r)) (successExitCodes opts) = false ->
  expectedErrors opts = [] ->
  git a path name opts e =
  (Raised {| result := rejected r; args := a |},
   invoked e {| inv_args := a; inv_path := path; inv_name := name |} w).
Proof.
  intros Hs Hno Hexp. unfold git. rewrite Hs, Hno, Hexp. unfold rejected.
  destruct (parseError (p_stderr r)); [reflexivity|].
  destruct (parseError (p_stdout r)); reflexivity.
Qed.

Lemma getStashes_run (repository : Repository.t) (e : Env)
      (r : ProcessResult) (w : World) :
  spawn logArgs (Repository.path repository) (world e) = (r, w) ->
  getStashes repository e =
  (if Z.eqb (p_exitCode r) 128
   then Returned {| desktopEntries := []; stashEntryCount := 0 |}
   else if Z.eqb (p_exitCode r) 0
        then Returned (catalogOf r)
        else Raised {| result := rejected r; args := logArgs |},
   invoked e (logInv repository) w).
Proof.
  intros Hs. unfold getStashes, bind. fold logArgs.
  destruct (Z.eqb (p_exitCode r) 128) eqn:E128.
  - rewrite (git_accepted _ _ _ _ _ _ _ Hs).
    + cbn [accepted exitCode]. rewrite E128. reflexivity.
    + cbn. rewrite E128. now rewrite !orb_true_r.
  - destruct (Z.eqb (p_exitCode r) 0) eqn:E0.
    + rewrite (git_accepted _ _ _ _ _ _ _ Hs).
      * cbn [accepted exitCode]. rewrite E128. reflexivity.
      * cbn. now rewrite E0.
    + rewrite (git_rejected _ _ _ _ _ _ _ Hs); auto.
      cbn. now rewrite E0, E128.
Qed.

Lemma getStashes_env (repository : Repository.t) (e e1 : Env)
      (o : Outcome StashResult) :
  getStashes repository e = (o, e1) ->
  e1 = invoked e (logInv repository)
         (snd (spawn logArgs (Repository.path repository) (world e))).
Proof.
  destruct (spawn logArgs (Repository.path repository) (world e)) as [r w] eqn:Hs.
  rewrite (getStashes_run _ _ _ _ Hs). intros H. now injection H as _ <-.
Qed.

Lemma matching_sha_run (repository : Repository.t) (sha : jsstring)
      (e e1 : Env) (st : StashResult) :
  getStashes repository e = (Returned st, e1) ->
  getStashEntryMatchingSha repository sha e = (Returned (bySha sha st), e1).
Proof. intros H. unfold getStashEntryMatchingSha, bind. now rewrite H. Qed.

Lemma drop_run (repository : Repository.t) (sha : jsstring)
      (e e1 : Env) (st : StashResult) :
  getStashes repository e = (Returned st, e1) ->
  dropDesktopStashEntry repository sha e =
  match bySha sha st with
  | Some entry =>
      match git (dropArgs entry) (Repository.path repository)
                (js "dropStashEntry") defaultOpts e1 with
      | (Returned _, e2) => (Returned tt, e2)
      | (Raised err, e2) => (Raised err, e2)
      end
  | None => (Returned tt, e1)
  end.
Proof.
  intros H. unfold dropDesktopStashEntry.
  unfold bind at 1. rewrite (matching_sha_run _ sha _ _ _ H).
  destruct (bySha sha st) as [entry|]; [|reflexivity].
  unfold bind, ret. fold (dropArgs entry).
  destruct (git _ _ _ _ e1) as [[x|err] e2]; reflexivity.
Qed.

Lemma find_first {A : Type} (f : A -> bool) (l : list A) :
  match find f l with
  | Some x =>
      exists before after,
        l = before ++ x :: after /\ f x = true
        /\ Forall (fun y => f y = false) before
  | None => Forall (fun y => f y = false) l
  end.
Proof.
  induction l as [|a l IH]; cbn [find].
  - constructor.
  - destruct (f a) eqn:E.
    + exists [], l. repeat split; auto.
    + destruct (find f l) as [x|].
      * destruct IH as [before [after [-> [Hx Hb]]]].
        exists (a :: before), after. repeat split; auto.
      * constructor; auto.
Qed.

(** ** C4: a repository without stash history *)

(** C4.  When the stash reflog query exits with 128, [getStashes]
    returns no owned entry and a count of 0 without raising; when it
    exits with any other non-zero code, the query raises the error of
    the executor. *)
Theorem getStashes_missing_reflog (repository : Repository.t) (e : Env)
        (r : ProcessResult) (w : World) :
  spawn logArgs (Repository.path repository) (world e) = (r, w) ->
  (p_exitCode r = 128%Z ->
   getStashes repository e =
   (Returned {| desktopEntries := []; stashEntryCount := 0 |},
    invoked e (logInv repository) w))
  /\ (p_exitCode r <> 0%Z -> p_exitCode r <> 128%Z ->
      getStashes repository e =
      (Raised {| result := rejected r; args := logArgs |},
       invoked e (logInv repository) w)).
Proof.
  intros Hs. rewrite (getStashes_run _ _ _ _ Hs). split.
  - intros ->. reflexivity.
  - intros H0 H128.
    apply Z.eqb_neq in H0, H128. now rewrite H0, H128.
Qed.

(** ** C5 and C10: the total count *)

(** C5.  When the log stream parses into [k] real records and the one
    trailing synthetic record, [k + 1] records in all, [getStashes]
    reports the count [k]. *)
Theorem getStashes_counts_real_records (repository : Repository.t) (e : Env)
        (r : ProcessResult) (w : World) (k : nat) :
  spawn logArgs (Repository.path repository) (world e) = (r, w) ->
  p_exitCode r = 0%Z ->
  length (parse (p_stdout r)) = S k ->
  exists st,
    getStashes repository e = (Returned st, invoked e (logInv repository) w)
    /\ stashEntryCount st = Z.of_nat k.
Proof.
  intros Hs H0 Hk. rewrite (getStashes_run _ _ _ _ Hs), H0. cbn [Z.eqb].
  eexists. split; [reflexivity|].
  cbn [catalogOf stashEntryCount]. rewrite Hk. lia.
Qed.

(** C10.  After a log invocation that exits 0 the count is the number of
    parsed records minus one, whatever that number is; when the parser
    yields no record the count is -1. *)
Theorem getStashes_negative_count (repository : Repository.t) (e : Env)
        (r : ProcessResult) (w : World) :
  spawn logArgs (Repository.path repository) (world e) = (r, w) ->
  p_exitCode r = 0%Z ->
  exists st,
    getStashes repository e = (Returned st, invoked e (logInv repository) w)
    /\ stashEntryCount st = (Z.of_nat (length (parse (p_stdout r))) - 1)%Z
    /\ (parse (p_stdout r) = [] ->
        st = {| desktopEntries := []; stashEntryCount := -1 |}).
Proof.
  intros Hs H0. rewrite (getStashes_run _ _ _ _ Hs), H0. cbn [Z.eqb].
  eexists. split; [reflexivity|]. split; [reflexivity|].
  intros Hp. unfold catalogOf. rewrite Hp. reflexivity.
Qed.

(** ** C7: the latest owned entry of a branch *)

(** C7.  Asked for the branch name [B], given as a string or as a
    branch object whose name is [B], [getLastDesktopStashEntryForBranch]
    returns the first entry of the owned list whose branch name is [B],
    with no earlier entry on [B], or null when no entry is on [B]; for a
    list of three entries whose first and last are on [B], it returns the
    first. *)
Theorem last_entry_is_first_match (repository : Repository.t)
        (B : jsstring) (b : Branch.t) (e e1 : Env) (st : StashResult) :
  getStashes repository e = (Returned st, e1) ->
  Branch.name b = B ->
  exists found,
    getLastDesktopStashEntryForBranch repository (inr B) e = (Returned found, e1)
    /\ getLastDesktopStashEntryForBranch repository (inl b) e = (Returned found, e1)
    /\ match found with
       | Some entry =>
           exists before after,
             desktopEntries st = before ++ entry :: after
             /\ IStashEntry.branchName entry = B
             /\ Forall (fun x => IStashEntry.branchName x <> B) before
       | None =>
           Forall (fun x => IStashEntry.branchName x <> B) (desktopEntries st)
       end
    /\ (forall first second third,
           desktopEntries st = [first; second; third] ->
           IStashEntry.branchName first = B ->
           IStashEntry.branchName third = B ->
           found = Some first).
Proof.
  intros H Hb. unfold getLastDesktopStashEntryForBranch, bind. rewrite H.
  cbn [nameOfBranch]. rewrite Hb.
  eexists. split; [reflexivity|]. split; [reflexivity|]. split.
  - pose proof (find_first
      (fun x => str_eqb (IStashEntry.branchName x) B) (desktopEntries st)) as Hf.
    destruct (find _ (desktopEntries st)) as [entry|].
    + destruct Hf as [before [after [Hl [Hx Hbefore]]]].
      exists before, after. repeat split; auto.
      * now apply str_eqb_eq.
      * eapply Forall_impl; [|exact Hbefore]. intros a Ha. now apply str_eqb_neq.
    + eapply Forall_impl; [|exact Hf]. intros a Ha. now apply str_eqb_neq.
  - intros first second third -> Hfirst _. cbn [find].
    rewrite Hfirst, str_eqb_refl. reflexivity.
Qed.

(** ** C8: dropping or popping an absent entry *)

(** C8, as amended.  When the owned list has no entry for [stashSha],
    [dropDesktopStashEntry] and [popStashEntry] both return normally
    having performed no external invocation other than the log query
    that reads the list: no drop, no pop, nothing logged. *)
Theorem absent_entry_is_noop (repository : Repository.t) (stashSha : jsstring)
        (e e1 : Env) (st : StashResult) :
  getStashes repository e = (Returned st, e1) ->
  bySha stashSha st = None ->
  dropDesktopStashEntry repository stashSha e = (Returned tt, e1)
  /\ popStashEntry repository stashSha e = (Returned tt, e1)
  /\ invocations e1 = invocations e ++ [logInv repository]
  /\ isDrop (logInv repository) = false
  /\ isPop (logInv repository) = false
  /\ infos e1 = infos e.
Proof.
  intros H Hnone. split; [|split].
  - rewrite (drop_run _ _ _ _ _ H), Hnone. reflexivity.
  - unfold popStashEntry. unfold bind at 1.
    rewrite (matching_sha_run _ stashSha _ _ _ H), Hnone. reflexivity.
  - apply getStashes_env in H. subst e1. repeat split; reflexivity.
Qed.

(** ** C3: a move that fails at the store step *)


(** ** C2: a pop that reports exit code 1 *)

(** C2, as amended.  Let the pop command of a resolvable [stashSha]
    exit with 1.  With empty stderr [popStashEntry] calls
    [dropDesktopStashEntry] once for the same sha and ends exactly as
    that call ends: when the list read again still holds the sha and the
    drop command exits 0, one drop command has been issued and nothing is
    raised.  With non-empty stderr it raises the error of the pop command
    and issues no drop. *)
Theorem pop_conflict_outcome (repository : Repository.t) (stashSha : jsstring)
        (e e1 : Env) (st : StashResult) (entry : IStashEntry.t)
        (r : ProcessResult) (w2 : World) :
  getStashes repository e = (Returned st, e1) ->
  bySha stashSha st = Some entry ->
  spawn (popArgs entry) (Repository.path repository) (world e1) = (r, w2) ->
  p_exitCode r = 1%Z ->
  let e2 := invoked e1 (popInv repository entry) w2 in
  (p_stderr r = [] ->
   popStashEntry repository stashSha e =
   dropDesktopStashEntry repository stashSha (logged e2 (PopSoftSuccess 1))
   /\ forall st' e3 entry' r' w4,
       getStashes repository (logged e2 (PopSoftSuccess 1)) = (Returned st', e3) ->
       bySha stashSha st' = Some entry' ->
       spawn (dropArgs entry') (Repository.path repository) (world e3) = (r', w4) ->
       p_exitCode r' = 0%Z ->
       let issued := [logInv repository; popInv repository entry;
                      logInv repository; dropInv repository entry'] in
       popStashEntry repository stashSha e =
       (Returned tt, invoked e3 (dropInv repository entry') w4)
       /\ invocations (invoked e3 (dropInv repository entry') w4)
          = invocations e ++ issued
       /\ filter isDrop issued = [dropInv repository entry'])
  /\ (p_stderr r <> [] ->
      popStashEntry repository stashSha e =
      (Raised {| result := accepted r; args := popArgs entry |}, e2)
      /\ invocations e2
         = invocations e ++ [logInv repository; popInv repository entry]
      /\ filter isDrop [logInv repository; popInv repository entry] = []).
Proof.
  intros H Hfound Hs Hexit e2.
  assert (Hpop : forall err_empty : bool,
             Nat.ltb 0 (length (p_stderr r)) = negb err_empty ->
             popStashEntry repository stashSha e =
             if err_empty
             then dropDesktopStashEntry repository stashSha
                    (logged e2 (PopSoftSuccess 1))
             else (Raised {| result := accepted r; args := popArgs entry |}, e2)).
  { intros b Hb. unfold popStashEntry. unfold bind at 1.
    rewrite (matching_sha_run _ stashSha _ _ _ H), Hfound.
    fold (popArgs entry). unfold bind at 1.
    rewrite (git_accepted _ _ _ _ _ _ _ Hs) by (cbn; now rewrite Hexit).
    cbn [accepted exitCode stderr]. rewrite Hexit, Hb. cbn [Z.eqb Pos.eqb].
    destruct b; reflexivity. }
  assert (He1 := getStashes_env _ _ _ _ H).
  split.
  - intros Hempty.
    assert (Hdrop := Hpop true). rewrite Hempty in Hdrop.
    specialize (Hdrop eq_refl). split; [exact Hdrop|].
    intros st' e3 entry' r' w4 H' Hfound' Hs' Hexit' issued.
    split; [|split].
    + rewrite Hdrop, (drop_run _ _ _ _ _ H'), Hfound'.
      rewrite (git_accepted _ _ _ _ _ _ _ Hs') by (cbn; now rewrite Hexit').
      reflexivity.
    + apply getStashes_env in H'. subst e3 e2. rewrite He1.
      unfold invoked, logged. cbn [invocations].
      rewrite <- !app_assoc. reflexivity.
    + reflexivity.
  - intros Hne. split; [|split].
    + apply (Hpop false). destruct (p_stderr r); [contradiction|reflexivity].
    + subst e2. rewrite He1. unfold invoked. cbn [invocations].
      rewrite <- app_assoc. reflexivity.
    + reflexivity.
Qed.

(** ** C6: creating a stash entry *)

Lemma create_run (repository : Repository.t) (branch : Branch.t + jsstring)
      (files : list FileChange) (e : Env)
      (w1 w2 : World) (r : ProcessResult) :
  stageFiles repository (map (fun x => withIncludeAll x true) files) (world e)
  = (None, w1) ->
  spawn (pushArgs (nameOfBranch branch)) (Repository.path repository) w1 = (r, w2) ->
  let e2 := {| world := w2;
               invocations := invocations e
                                ++ [pushInv repository (nameOfBranch branch)];
               infos := infos e |} in
  let created :=
    if str_eqb (p_stdout r) (js "No local changes to save" ++ [10%N])
    then false else true in
  createDesktopStashEntry repository branch files e =
  if Z.eqb (p_exitCode r) 0 then (Returned created, e2)
  else if Z.eqb (p_exitCode r) 1 then
    if has_error_line (p_stderr r)
    then (Raised {| result := accepted r;
                    args := pushArgs (nameOfBranch branch) |}, e2)
    else (Returned created, logged e2 (CreateSoftSuccess 1 (p_stderr r)))
  else (Raised {| result := rejected r;
                  args := pushArgs (nameOfBranch branch) |}, e2).
Proof.
  intros Hst Hs e2 created.
  unfold createDesktopStashEntry. unfold bind at 1. unfold stage.
  rewrite Hst. fold (pushArgs (nameOfBranch branch)).
  set (e1 := {| world := w1; invocations := invocations e; infos := infos e |}).
  assert (Hs1 : spawn (pushArgs (nameOfBranch branch))
                      (Repository.path repository) (world e1) = (r, w2))
    by exact Hs.
  unfold bind at 1.
  destruct (Z.eqb (p_exitCode r) 0) eqn:E0.
  - rewrite (git_accepted _ _ _ _ _ _ _ Hs1) by (cbn; now rewrite E0).
    apply Z.eqb_eq in E0.
    cbn [accepted exitCode stdout stderr]. rewrite E0. cbn [Z.eqb].
    unfold bind, ret. subst created.
    destruct (str_eqb (p_stdout r) _); reflexivity.
  - destruct (Z.eqb (p_exitCode r) 1) eqn:E1.
    + rewrite (git_accepted _ _ _ _ _ _ _ Hs1)
        by (cbn; rewrite E1; now rewrite orb_true_r).
      cbn [accepted exitCode stdout stderr]. rewrite E1.
      rewrite exec_error_prefix. apply Z.eqb_eq in E1. rewrite E1.
      subst created.
      destruct (has_error_line (p_stderr r)).
      * reflexivity.
      * unfold bind, log_info, ret.
        destruct (str_eqb (p_stdout r) _); reflexivity.
    + rewrite (git_rejected _ _ _ _ _ _ _ Hs1);
        [reflexivity | cbn; now rewrite E0, E1 | reflexivity].
Qed.

(** C6.  [createDesktopStashEntry] returns false when the stdout of the
    push command is exactly the no-changes text and true otherwise, on
    exit code 0 and on the soft success of exit code 1; on exit code 1 it
    raises exactly when stderr has a line that begins with [error: ]
    (lines end at line terminators, as [^] under the [m] flag reads
    them), and otherwise logs and continues. *)
Theorem create_outcome (repository : Repository.t) (branch : Branch.t + jsstring)
        (files : list FileChange) (e : Env)
        (w1 w2 : World) (r : ProcessResult) :
  stageFiles repository (map (fun x => withIncludeAll x true) files) (world e)
  = (None, w1) ->
  spawn (pushArgs (nameOfBranch branch)) (Repository.path repository) w1 = (r, w2) ->
  let out := createDesktopStashEntry repository branch files e in
  let noChanges := js "No local changes to save" ++ [10%N] in
  (p_exitCode r = 0%Z
   \/ (p_exitCode r = 1%Z /\ has_error_line (p_stderr r) = false) ->
   (p_stdout r = noChanges -> fst out = Returned false)
   /\ (p_stdout r <> noChanges -> fst out = Returned true))
  /\ (p_exitCode r = 1%Z ->
      (has_error_line (p_stderr r) = true <-> exists err, fst out = Raised err)
      /\ (has_error_line (p_stderr r) = true ->
          fst out = Raised {| result := accepted r;
                              args := pushArgs (nameOfBranch branch) |})
      /\ (has_error_line (p_stderr r) = false ->
          infos (snd out) = infos e ++ [CreateSoftSuccess 1 (p_stderr r)]))
  /\ invocations (snd out)
     = invocations e ++ [pushInv repository (nameOfBranch branch)].
Proof.
  intros Hst Hs out noChanges. subst out.
  rewrite (create_run _ _ _ _ _ _ _ Hst Hs). fold noChanges.
  split; [|split].
  - intros Hcase. split.
    + intros Heq. apply str_eqb_eq in Heq. rewrite Heq.
      destruct Hcase as [-> | [-> ->]]; reflexivity.
    + intros Hneq. apply str_eqb_neq in Hneq. rewrite Hneq.
      destruct Hcase as [-> | [-> ->]]; reflexivity.
  - intros ->. cbn [Z.eqb Pos.eqb]. split; [|split].
    + destruct (has_error_line (p_stderr r)); cbn [fst]; split.
      * eauto.
      * reflexivity.
      * discriminate.
      * intros [err Herr]. discriminate Herr.
    + intros ->. reflexivity.
    + intros ->. reflexivity.
  - destruct (Z.eqb (p_exitCode r) 0); [reflexivity|].
    destruct (Z.eqb (p_exitCode r) 1); [|reflexivity].
    destruct (has_error_line (p_stderr r)); reflexivity.
Qed.

End StashProperties.

(** * The properties on the scripted repository *)

Section Witnesses.
Import Scripted.
#[local] Existing Instance withTrailer.

Lemma getStashes_missing_reflog_witness :
  let e := start withTrailer noReflog in
  p_exitCode (fst (spawn logArgs (Repository.path repo) (world e))) = 128%Z
  /\ fst (getStashes repo e)
     = Returned {| desktopEntries := []; stashEntryCount := 0 |}.
Proof.
  intros e. split; [reflexivity|].
  rewrite (proj1 (@getStashes_missing_reflog withTrailer
                    repo e (reply 128 [] (js "fatal: bad revision")) []
                    eq_refl) eq_refl).
  reflexivity.
Defined.

Lemma getStashes_counts_real_records_witness :
  let e := start withTrailer listsABA in
  length (@parse withTrailer logABA) = 4
  /\ exists st, fst (getStashes repo e) = Returned st
                /\ stashEntryCount st = 3%Z.
Proof.
  intros e. split; [reflexivity|].
  destruct (@getStashes_counts_real_records withTrailer repo e
              (reply 0 logABA []) [] 3 eq_refl eq_refl eq_refl)
    as [st [Hrun Hcount]].
  exists st. rewrite Hrun. split; [reflexivity|exact Hcount].
Defined.

Lemma getStashes_negative_count_witness :
  let e := start fullOnly [reply 0 [] []] in
  @parse fullOnly [] = []
  /\ fst (getStashes repo e)
     = Returned {| desktopEntries := []; stashEntryCount := -1 |}.
Proof.
  intros e. split; [reflexivity|].
  destruct (@getStashes_negative_count fullOnly repo e (reply 0 [] []) []
              eq_refl eq_refl)
    as [st [Hrun [_ Hnone]]].
  rewrite Hrun, (Hnone eq_refl). reflexivity.
Defined.

Lemma last_entry_is_first_match_witness :
  let e := start withTrailer listsABA in
  let b := {| Branch.name := js "A" |} in
  fst (getStashes repo e) = Returned catalogABA
  /\ Branch.name b = js "A"
  /\ fst (getLastDesktopStashEntryForBranch repo (inr (js "A")) e)
     = Returned (Some entry0)
  /\ fst (getLastDesktopStashEntryForBranch repo (inl b) e)
     = Returned (Some entry0)
  /\ entry0 <> entry2.
Proof.
  intros e b. split; [reflexivity|]. split; [reflexivity|].
  destruct (@last_entry_is_first_match withTrailer repo (js "A") b e
              (invoked e (logInv repo) []) catalogABA eq_refl eq_refl)
    as [found [Hstring [Hobject [_ Haba]]]].
  rewrite Hstring, Hobject,
    (Haba entry0 entry1 entry2 eq_refl eq_refl eq_refl).
  split; [reflexivity|]. split; [reflexivity|discriminate].
Defined.

Lemma absent_entry_is_noop_witness :
  let e := start withTrailer listsABA in
  bySha (js "gone") catalogABA = None
  /\ fst (dropDesktopStashEntry repo (js "gone") e) = Returned tt
  /\ fst (popStashEntry repo (js "gone") e) = Returned tt.
Proof.
  intros e. split; [reflexivity|].
  destruct (@absent_entry_is_noop withTrailer repo (js "gone") e
              (invoked e (logInv repo) []) catalogABA eq_refl eq_refl)
    as [Hdrop [Hpop _]].
  rewrite Hdrop, Hpop. split; reflexivity.
Defined.

(** C8 as stated fails: dropping a sha that the owned list does not hold
    still performs one external invocation, the log query. *)
Lemma absent_entry_counterexample :
  let e := start withTrailer listsABA in
  fst (getStashes repo e) = Returned catalogABA
  /\ bySha (js "gone") catalogABA = None
  /\ invocations e = []
  /\ invocations (snd (dropDesktopStashEntry repo (js "gone") e))
     = [logInv repo].
Proof. cbv zeta. repeat split. Qed.



Lemma pop_conflict_outcome_witness :
  let e := start withTrailer popConflicts in
  bySha (js "sha1") catalogABA = Some entry1
  /\ fst (popStashEntry repo (js "sha1") e) = Returned tt
  /\ map inv_args (invocations (snd (popStashEntry repo (js "sha1") e)))
     = [logArgs; popArgs entry1; logArgs; dropArgs entry1].
Proof.
  intros e. split; [reflexivity|].
  pose (e1 := invoked e (logInv repo) [reply 1 [] []; reply 0 logABA []; reply 0 [] []]).
  pose (e2 := logged (invoked e1 (popInv repo entry1) [reply 0 logABA []; reply 0 [] []])
                     (PopSoftSuccess 1)).
  destruct (@pop_conflict_outcome withTrailer repo (js "sha1") e e1 catalogABA
              entry1 (reply 1 [] []) [reply 0 logABA []; reply 0 [] []]
              eq_refl eq_refl eq_refl eq_refl)
    as [Hempty _].
  destruct (Hempty eq_refl) as [_ Hfollow].
  destruct (Hfollow catalogABA (invoked e2 (logInv repo) [reply 0 [] []])
                    entry1 (reply 0 [] []) []
                    eq_refl eq_refl eq_refl eq_refl)
    as [Hrun _].
  rewrite Hrun. split; reflexivity.
Defined.

(** C2 as stated fails: the pop of a resolvable sha exits 1 with empty
    stderr, the drop command that follows fails, and [popStashEntry]
    raises. *)
Lemma pop_conflict_counterexample :
  let e := start withTrailer popConflictsDropFails in
  let e1 := snd (getStashes repo e) in
  let failed := reply 1 [] (js "error: could not lock the stash reflog") in
  fst (getStashes repo e) = Returned catalogABA
  /\ bySha (js "sha1") catalogABA = Some entry1
  /\ fst (spawn (popArgs entry1) (Repository.path repo) (world e1)) = reply 1 [] []
  /\ fst (popStashEntry repo (js "sha1") e)
     = Raised {| result := rejected failed; args := dropArgs entry1 |}
  /\ map inv_args (invocations (snd (popStashEntry repo (js "sha1") e)))
     = [logArgs; popArgs entry1; logArgs; dropArgs entry1].
Proof. cbv zeta. repeat split. Qed.

Lemma create_outcome_witness :
  let e := start withTrailer nothingToStash in
  fst (createDesktopStashEntry repo (inr (js "A")) [tt] e) = Returned false.
Proof.
  intros e.
  destruct (@create_outcome withTrailer repo (inr (js "A")) [tt] e
              nothingToStash []
              (reply 0 (js "No local changes to save" ++ [10%N]) [])
              eq_refl eq_refl)
    as [Hflag _].
  destruct (Hflag (or_introl eq_refl)) as [Hfalse _].
  exact (Hfalse eq_refl).
Defined.

End Witnesses.

(** * Further properties of the classifier *)

Lemma line_terminator_not_in_marker (c : code_unit) :
  is_line_terminator c = true -> existsb (N.eqb c) marker_open = false.
Proof.
  unfold is_line_terminator. intros H.
  repeat (apply orb_true_iff in H as [H|H]);
    apply N.eqb_eq in H; subst c; reflexivity.
Qed.

Lemma no_line_terminator_In (b : jsstring) (c : code_unit) :
  no_line_terminator b = true -> In c b -> is_line_terminator c = false.
Proof.
  unfold no_line_terminator. rewrite forallb_forall. intros H Hin.
  apply H in Hin. now apply negb_true_iff in Hin.
Qed.

(** No match of the classifier pattern starts before a line terminator. *)
Lemma owned_at_across_line (u l : jsstring) (c : code_unit) :
  is_line_terminator c = true -> owned_at (u ++ c :: l) = None.
Proof.
  intros Hc. unfold owned_at.
  destruct (strip_prefix marker_open (u ++ c :: l)) as [t|] eqn:E; [|reflexivity].
  destruct (payload t) as [b|] eqn:Ep; [|reflexivity]. exfalso.
  assert (Hu : starts_with marker_open u = true).
  { apply (starts_with_before_sep marker_open u l c).
    - now apply line_terminator_not_in_marker.
    - unfold starts_with. now rewrite E. }
  unfold starts_with in Hu.
  destruct (strip_prefix marker_open u) as [u'|] eqn:Eu; [|discriminate].
  apply strip_prefix_Some in Eu. subst u.
  rewrite <- app_assoc, strip_prefix_app in E. injection E as <-.
  apply payload_spec in Ep as [Ht [_ Hn]].
  assert (Hin : In c (b ++ [62%N])).
  { rewrite <- Ht. apply in_or_app. right. now left. }
  apply in_app_or in Hin as [Hin|[Hin|[]]].
  - rewrite (no_line_terminator_In b c Hn Hin) in Hc. discriminate.
  - subst c. discriminate.
Qed.

Lemma scan_last_line (p l : jsstring) (c : code_unit) :
  is_line_terminator c = true -> scan (p ++ c :: l) = scan l.
Proof.
  intros Hc. induction p as [|y p IH].
  - pose proof (owned_at_across_line [] l c Hc) as H. cbn [app] in H.
    cbn [app scan]. now rewrite H.
  - change ((y :: p) ++ c :: l) with (y :: (p ++ c :: l)). cbn [scan].
    change (y :: (p ++ c :: l)) with ((y :: p) ++ c :: l).
    now rewrite (owned_at_across_line (y :: p) l c Hc).
Qed.

Lemma starts_with_app_cases (p u s : jsstring) :
  starts_with p (u ++ s) = true ->
  starts_with p u = true
  \/ (length u < length p /\ starts_with (skipn (length u) p) s = true).
Proof.
  revert u; induction p as [|a p IH]; intros u H.
  - now left.
  - destruct u as [|y u].
    + right. split; [simpl; lia|exact H].
    + change ((y :: u) ++ s) with (y :: (u ++ s)) in H.
      rewrite starts_with_cons in H. apply andb_true_iff in H as [Hy H].
      destruct (IH u H) as [Hl|[Hlen Hr]].
      * left. rewrite starts_with_cons. now rewrite Hy, Hl.
      * right. split; [simpl; lia|exact Hr].
Qed.

(** The opening marker does not overlap a shifted copy of itself. *)
Lemma marker_no_overlap (d : nat) (t : jsstring) :
  0 < d -> d < length marker_open ->
  starts_with (skipn d marker_open) (marker_open ++ t) = false.
Proof.
  intros H0 Hd. change (length marker_open) with 17 in Hd.
  do 17 (destruct d as [|d]; [first [lia | reflexivity]|]). lia.
Qed.

Lemma scan_skip_marker_free (p t : jsstring) :
  occurs marker_open p = false ->
  scan (p ++ marker_open ++ t) = scan (marker_open ++ t).
Proof.
  intros Hp. induction p as [|y p IH]; [reflexivity|].
  cbn [occurs] in Hp. apply orb_false_iff in Hp as [Hy Hp].
  change ((y :: p) ++ marker_open ++ t) with (y :: (p ++ marker_open ++ t)).
  rewrite scan_skip; [now apply IH|].
  destruct (starts_with marker_open (y :: p ++ marker_open ++ t)) eqn:E; auto.
  change (y :: p ++ marker_open ++ t) with ((y :: p) ++ marker_open ++ t) in E.
  apply starts_with_app_cases in E as [E|[Hlen E]]; [congruence|].
  rewrite marker_no_overlap in E; [discriminate|simpl; lia|exact Hlen].
Qed.

(** X1.  Whatever the classifier returns is non-empty and free of line
    terminators, and the message ends in the opening marker, that text
    and one closing bracket. *)
Theorem classifier_result_shape (s b : jsstring) :
  extractBranchFromMessage s = Some b ->
  b <> [] /\ no_line_terminator b = true
  /\ exists pre, s = pre ++ js "!!GitHub_Desktop<" ++ b ++ js ">".
Proof.
  rewrite extract_scan. intros H.
  apply scan_sound in H as [pre [Hs [Hne Hn]]]. eauto.
Qed.

Lemma classifier_result_shape_witness :
  let s := js "On main: !!GitHub_Desktop<fix<1>>" in
  let b := js "fix<1>" in
  extractBranchFromMessage s = Some b
  /\ exists pre, s = pre ++ js "!!GitHub_Desktop<" ++ b ++ js ">".
Proof.
  intros s b.
  assert (H : extractBranchFromMessage s = Some b) by reflexivity.
  exact (conj H (proj2 (proj2 (classifier_result_shape s b H)))).
Defined.

(** X2.  The classifier reads the last line only: whatever stands before
    a line terminator does not change its answer. *)
Theorem classifier_reads_last_line (p l : jsstring) (c : code_unit) :
  is_line_terminator c = true ->
  extractBranchFromMessage (p ++ c :: l) = extractBranchFromMessage l.
Proof. intros Hc. rewrite !extract_scan. now apply scan_last_line. Qed.

Lemma classifier_reads_last_line_witness :
  let p := js "!!GitHub_Desktop<a>" in
  let l := js "On b: plain text" in
  is_line_terminator 10%N = true
  /\ extractBranchFromMessage (p ++ 10%N :: l) = extractBranchFromMessage l.
Proof.
  intros p l.
  exact (conj eq_refl (classifier_reads_last_line p l 10%N eq_refl)).
Defined.

(** X3.  Text in front of the first opening marker never changes the
    answer of the classifier. *)
Theorem classifier_skips_leading_text (p t : jsstring) :
  occurs (js "!!GitHub_Desktop<") p = false ->
  extractBranchFromMessage (p ++ js "!!GitHub_Desktop<" ++ t)
  = extractBranchFromMessage (js "!!GitHub_Desktop<" ++ t).
Proof. intros Hp. rewrite !extract_scan. now apply scan_skip_marker_free. Qed.

Lemma classifier_skips_leading_text_witness :
  let p := js "WIP on main: 1234567 !" in
  let t := js "topic>" in
  occurs (js "!!GitHub_Desktop<") p = false
  /\ extractBranchFromMessage (p ++ js "!!GitHub_Desktop<" ++ t) = Some (js "topic").
Proof.
  intros p t.
  assert (Hp : occurs (js "!!GitHub_Desktop<") p = false) by reflexivity.
  split; [exact Hp|].
  rewrite (classifier_skips_leading_text p t Hp). reflexivity.
Defined.

(** X4.  The message that [moveStashEntry] writes for a destination
    branch is classified as owned by that branch, when the branch name is
    non-empty, has no line terminator and does not contain the opening
    marker. *)
Theorem move_message_round_trip (b : jsstring) :
  b <> [] ->
  no_line_terminator b = true ->
  occurs (js "!!GitHub_Desktop<") b = false ->
  extractBranchFromMessage (moveMessage b) = Some b.
Proof.
  intros Hne Hn Hb. rewrite extract_scan.
  change (moveMessage b)
    with (js "On " ++ b ++ js ": " ++ marker_open ++ b ++ [62%N]).
  rewrite scan_extended by exact Hb. now apply scan_here.
Qed.

Lemma move_message_round_trip_witness :
  let b := js "release/1.0" in
  b <> [] /\ no_line_terminator b = true
  /\ occurs (js "!!GitHub_Desktop<") b = false
  /\ extractBranchFromMessage (moveMessage b) = Some b.
Proof.
  intros b.
  assert (Hne : b <> []) by discriminate.
  exact (conj Hne (conj eq_refl (conj eq_refl
           (move_message_round_trip b Hne eq_refl eq_refl)))).
Defined.

(** Without the last condition the move message can be read back as
    another branch. *)
Example move_message_marker_in_branch :
  extractBranchFromMessage (moveMessage (js "!!GitHub_Desktop<z"))
  = Some (js "z: !!GitHub_Desktop<!!GitHub_Desktop<z").
Proof. reflexivity. Qed.

(** * Further properties of the catalog *)

Lemma split_cons (sep c : code_unit) (s : jsstring) :
  split sep (c :: s) =
  if N.eqb c sep then [] :: split sep s
  else (c :: hd [] (split sep s)) :: tl (split sep s).
Proof.
  cbn [split]. destruct (N.eqb c sep); auto. now destruct (split sep s).
Qed.

Lemma split_hd_tl (sep : code_unit) (s : jsstring) :
  split sep s = hd [] (split sep s) :: tl (split sep s).
Proof.
  destruct s as [|c s]; [reflexivity|].
  rewrite split_cons. now destruct (N.eqb c sep).
Qed.

Lemma join_cons (sep : code_unit) (p : jsstring) (q : jsstring)
      (more : list jsstring) :
  join sep (p :: q :: more) = p ++ sep :: join sep (q :: more).
Proof. reflexivity. Qed.

Lemma join_split (sep : code_unit) (s : jsstring) :
  join sep (split sep s) = s.
Proof.
  induction s as [|c s IH]; [reflexivity|].
  rewrite split_cons. pose proof (split_hd_tl sep s) as Hs.
  remember (hd [] (split sep s)) as h eqn:Hh.
  remember (tl (split sep s)) as t eqn:Ht.
  rewrite Hs in IH |- *. clear Hs Hh Ht.
  destruct (N.eqb c sep) eqn:E.
  - apply N.eqb_eq in E. subst c. rewrite join_cons. cbn [app].
    f_equal. exact IH.
  - destruct t as [|q more].
    + cbn [join] in *. f_equal. exact IH.
    + rewrite join_cons in *. cbn [app]. f_equal. exact IH.
Qed.

Lemma split_pieces (sep : code_unit) (s : jsstring) :
  Forall (fun p => existsb (N.eqb sep) p = false) (split sep s).
Proof.
  induction s as [|c s IH]; [repeat constructor|].
  rewrite split_cons. pose proof (split_hd_tl sep s) as Hs.
  remember (hd [] (split sep s)) as h eqn:Hh.
  remember (tl (split sep s)) as t eqn:Ht.
  rewrite Hs in IH |- *. clear Hs Hh Ht.
  inversion IH as [|p ps Hp Hps]; subst.
  destruct (N.eqb c sep) eqn:E.
  - constructor; [reflexivity|]. now constructor.
  - constructor; [|exact Hps]. cbn [existsb].
    rewrite N.eqb_sym, E. exact Hp.
Qed.

Section CatalogProperties.
Context {C : Collaborators}.

Lemma push_from_nil (fs : StashedFileChanges) (acc : list IStashEntry.t)
      (entry : LogEntry.t) :
  pushIfDesktop fs acc entry = acc ++ pushIfDesktop fs [] entry.
Proof.
  unfold pushIfDesktop.
  destruct (extractBranchFromMessage (LogEntry.message entry));
    [reflexivity|now rewrite app_nil_r].
Qed.

Lemma fold_push (fs : StashedFileChanges) (l : list LogEntry.t)
      (acc : list IStashEntry.t) :
  fold_left (pushIfDesktop fs) l acc = acc ++ flat_map (pushIfDesktop fs []) l.
Proof.
  revert acc; induction l as [|x l IH]; intros acc; cbn [fold_left flat_map].
  - now rewrite app_nil_r.
  - rewrite IH, push_from_nil, <- app_assoc. reflexivity.
Qed.

Lemma getStashes_returned (repository : Repository.t) (e e1 : Env)
      (st : StashResult) :
  getStashes repository e = (Returned st, e1) ->
  st = {| desktopEntries := []; stashEntryCount := 0 |}
  \/ st = catalogOf (fst (spawn logArgs (Repository.path repository) (world e))).
Proof.
  destruct (spawn logArgs (Repository.path repository) (world e)) as [r w] eqn:Hs.
  rewrite (getStashes_run _ _ _ _ Hs). cbn [fst].
  destruct (Z.eqb (p_exitCode r) 128); [intros H; injection H as <- _; now left|].
  destruct (Z.eqb (p_exitCode r) 0); [|discriminate].
  intros H. injection H as <- _. now right.
Qed.

Lemma catalog_entries (r : ProcessResult) :
  desktopEntries (catalogOf r)
  = flat_map (pushIfDesktop {| kind := NotLoaded |} []) (parse (p_stdout r)).
Proof. unfold catalogOf. cbn [desktopEntries]. now rewrite fold_push. Qed.

(** X5.  After a log that exits 0 the owned entries are the parsed
    records whose message the classifier accepts, in the order of the
    stream, each with the name, sha and tree of its record and with the
    branch the classifier read. *)
Theorem catalog_keeps_stream_order (repository : Repository.t) (e : Env)
        (r : ProcessResult) (w : World) :
  spawn logArgs (Repository.path repository) (world e) = (r, w) ->
  p_exitCode r = 0%Z ->
  exists st,
    getStashes repository e = (Returned st, invoked e (logInv repository) w)
    /\ map (fun x => (IStashEntry.name x, IStashEntry.stashSha x,
                      IStashEntry.tree x, Some (IStashEntry.branchName x)))
           (desktopEntries st)
       = map (fun x => (LogEntry.name x, LogEntry.stashSha x, LogEntry.tree x,
                        extractBranchFromMessage (LogEntry.message x)))
             (filter isOwned (parse (p_stdout r))).
Proof.
  intros Hs H0. rewrite (getStashes_run _ _ _ _ Hs), H0. cbn [Z.eqb].
  eexists. split; [reflexivity|]. rewrite catalog_entries.
  induction (parse (p_stdout r)) as [|x l IH]; [reflexivity|].
  cbn [flat_map filter]. rewrite map_app, IH.
  unfold isOwned, pushIfDesktop.
  destruct (extractBranchFromMessage (LogEntry.message x)) eqn:E.
  - cbn [map app]. rewrite E. reflexivity.
  - reflexivity.
Qed.

(** X6.  Every owned entry that [getStashes] returns has a branch name
    that is non-empty and free of line terminators. *)
Theorem catalog_branch_names (repository : Repository.t) (e e1 : Env)
        (st : StashResult) :
  getStashes repository e = (Returned st, e1) ->
  Forall (fun x => IStashEntry.branchName x <> []
                   /\ no_line_terminator (IStashEntry.branchName x) = true)
         (desktopEntries st).
Proof.
  intros H. apply getStashes_returned in H as [->| ->]; [constructor|].
  rewrite catalog_entries.
  induction (parse (p_stdout _)) as [|x l IH]; [constructor|].
  cbn [flat_map]. apply Forall_app. split; [|exact IH].
  unfold pushIfDesktop.
  destruct (extractBranchFromMessage (LogEntry.message x)) as [b|] eqn:E;
    [|constructor].
  rewrite extract_scan in E. apply scan_sound in E as [pre [_ [Hne Hn]]].
  repeat constructor; assumption.
Qed.

(** X7.  The owned list never has more entries than the records parsed,
    so its length is at most [stashEntryCount + 1]; the count itself is
    never below -1. *)
Theorem catalog_count_bound (repository : Repository.t) (e e1 : Env)
        (st : StashResult) :
  getStashes repository e = (Returned st, e1) ->
  (Z.of_nat (length (desktopEntries st)) <= stashEntryCount st + 1)%Z
  /\ (-1 <= stashEntryCount st)%Z.
Proof.
  intros H. apply getStashes_returned in H as [->| ->];
    [cbn; lia|].
  rewrite catalog_entries. cbn [catalogOf stashEntryCount].
  split; [|lia].
  assert (Hlen : length (flat_map (pushIfDesktop {| kind := NotLoaded |} [])
                                  (parse (p_stdout
                                     (fst (spawn logArgs
                                             (Repository.path repository)
                                             (world e))))))
                 <= length (parse (p_stdout
                                     (fst (spawn logArgs
                                             (Repository.path repository)
                                             (world e)))))).
  { induction (parse (p_stdout _)) as [|x l IH]; [reflexivity|].
    cbn [flat_map]. rewrite length_app. unfold pushIfDesktop at 1.
    destruct (extractBranchFromMessage (LogEntry.message x)); simpl; lia. }
  lia.
Qed.

(** X8.  The parents of an owned entry are the pieces of the record's
    parents field between spaces: joined with spaces they give the field
    back, none of them contains a space, and the list is empty exactly
    when the field is. *)
Theorem catalog_parents (repository : Repository.t) (e : Env)
        (r : ProcessResult) (w : World) :
  spawn logArgs (Repository.path repository) (world e) = (r, w) ->
  p_exitCode r = 0%Z ->
  exists st,
    getStashes repository e = (Returned st, invoked e (logInv repository) w)
    /\ map (fun x => join 32%N (IStashEntry.parents x)) (desktopEntries st)
       = map LogEntry.parents (filter isOwned (parse (p_stdout r)))
    /\ Forall (fun x => Forall (fun p => existsb (N.eqb 32%N) p = false)
                               (IStashEntry.parents x)
                        /\ (IStashEntry.parents x = []
                            <-> join 32%N (IStashEntry.parents x) = []))
              (desktopEntries st).
Proof.
  intros Hs H0. rewrite (getStashes_run _ _ _ _ Hs), H0. cbn [Z.eqb].
  eexists. split; [reflexivity|]. rewrite catalog_entries.
  induction (parse (p_stdout r)) as [|x l [IH1 IH2]];
    [split; [reflexivity|constructor]|].
  assert (Hone :
    map (fun y => join 32%N (IStashEntry.parents y))
        (pushIfDesktop {| kind := NotLoaded |} [] x)
    = (if isOwned x then [LogEntry.parents x] else [])
    /\ Forall (fun y => Forall (fun p => existsb (N.eqb 32%N) p = false)
                               (IStashEntry.parents y)
                        /\ (IStashEntry.parents y = []
                            <-> join 32%N (IStashEntry.parents y) = []))
              (pushIfDesktop {| kind := NotLoaded |} [] x)).
  { unfold isOwned, pushIfDesktop.
    destruct (extractBranchFromMessage (LogEntry.message x));
      [|split; [reflexivity|constructor]].
    cbn [map app IStashEntry.parents].
    destruct (LogEntry.parents x) as [|c ps] eqn:Ep.
    - split; [reflexivity|]. repeat constructor.
    - replace (Nat.ltb 0 (length (c :: ps))) with true by reflexivity.
      rewrite join_split. split; [reflexivity|].
      constructor; [|constructor]. split; [apply split_pieces|].
      cbn [IStashEntry.parents]. rewrite join_split.
      split; [|discriminate].
      rewrite (split_hd_tl 32%N (c :: ps)). discriminate. }
  destruct Hone as [Hmap Hall].
  cbn [flat_map filter]. rewrite map_app, IH1, Hmap. split.
  - now destruct (isOwned x).
  - apply Forall_app. split; assumption.
Qed.

End CatalogProperties.

(** * Further properties of the sequencer *)

Section SequencerProperties.
Context {C : Collaborators}.

Lemma issued_app (e e' : Env) (l : list Invocation) :
  invocations e' = invocations e ++ l -> issued e e' = l.
Proof.
  intros H. unfold issued. rewrite H, skipn_app, skipn_all, Nat.sub_diag.
  reflexivity.
Qed.

Lemma git_env (a : list jsstring) (path name : jsstring)
      (opts : IGitExecutionOptions) (e : Env) :
  snd (git a path name opts e)
  = invoked e {| inv_args := a; inv_path := path; inv_name := name |}
            (snd (spawn a path (world e))).
Proof.
  unfold git. destruct (spawn a path (world e)) as [r w].
  destruct (_ || _)%bool; reflexivity.
Qed.

Lemma git_default (a : list jsstring) (path name : jsstring) (e : Env)
      (r : ProcessResult) (w : World) :
  spawn a path (world e) = (r, w) ->
  git a path name defaultOpts e =
  (if Z.eqb (p_exitCode r) 0
   then Returned (accepted r)
   else Raised {| result := rejected r; args := a |},
   invoked e {| inv_args := a; inv_path := path; inv_name := name |} w).
Proof.
  intros Hs. destruct (Z.eqb (p_exitCode r) 0) eqn:E.
  - apply (git_accepted _ _ _ _ _ _ _ Hs). cbn. now rewrite E.
  - apply (git_rejected _ _ _ _ _ _ _ Hs); [cbn; now rewrite E|reflexivity].
Qed.

Lemma bySha_sha (sha : jsstring) (st : StashResult) (entry : IStashEntry.t) :
  bySha sha st = Some entry ->
  IStashEntry.stashSha entry = sha /\ In entry (desktopEntries st).
Proof.
  unfold bySha. intros H. apply find_some in H as [Hin Heq].
  apply str_eqb_eq in Heq. auto.
Qed.

Lemma matching_sha_raise (repository : Repository.t) (sha : jsstring)
      (e e1 : Env) (err : GitError) :
  getStashes repository e = (Raised err, e1) ->
  getStashEntryMatchingSha repository sha e = (Raised err, e1).
Proof. intros H. unfold getStashEntryMatchingSha, bind. now rewrite H. Qed.

Lemma drop_raise (repository : Repository.t) (sha : jsstring)
      (e e1 : Env) (err : GitError) :
  getStashes repository e = (Raised err, e1) ->
  dropDesktopStashEntry repository sha e = (Raised err, e1).
Proof.
  intros H. unfold dropDesktopStashEntry. unfold bind at 1.
  now rewrite (matching_sha_raise _ sha _ _ _ H).
Qed.

Lemma drop_invocations (repository : Repository.t) (sha : jsstring) (e : Env) :
  infos (snd (dropDesktopStashEntry repository sha e)) = infos e
  /\ invocations (snd (dropDesktopStashEntry repository sha e))
     = invocations e ++ logInv repository :: dropCommand repository sha e.
Proof.
  unfold dropCommand.
  destruct (getStashes repository e) as [[st|err] e1] eqn:H;
    pose proof (getStashes_env _ _ _ _ H) as He1; cbn [fst].
  - rewrite (drop_run _ sha _ _ _ H).
    destruct (bySha sha st) as [entry|] eqn:Hf.
    + pose proof (git_env (dropArgs entry) (Repository.path repository)
                          (js "dropStashEntry") defaultOpts e1) as Hg.
      destruct (git (dropArgs entry) _ _ _ e1) as [[x|err] e2];
        cbn [snd] in *; subst e2 e1; (split; [reflexivity|]);
        unfold invoked; cbn [invocations]; now rewrite <- app_assoc.
    + cbn [snd]. subst e1. split; reflexivity.
  - rewrite (drop_raise _ sha _ _ _ H). cbn [snd]. subst e1.
    split; reflexivity.
Qed.

(** X9.  The queries only read: [getStashes] and
    [getLastDesktopStashEntryForBranch] issue exactly one invocation, the
    log query, whatever it answers, and log nothing. *)
Theorem queries_only_read (repository : Repository.t)
        (branch : Branch.t + jsstring) (e : Env) :
  issued e (snd (getStashes repository e)) = [logInv repository]
  /\ issued e (snd (getLastDesktopStashEntryForBranch repository branch e))
     = [logInv repository]
  /\ isQuery (logInv repository) = true
  /\ infos (snd (getLastDesktopStashEntryForBranch repository branch e)) = infos e.
Proof.
  destruct (getStashes repository e) as [o e1] eqn:H.
  pose proof (getStashes_env _ _ _ _ H) as He1.
  assert (Hlast : snd (getLastDesktopStashEntryForBranch repository branch e) = e1).
  { unfold getLastDesktopStashEntryForBranch, bind. rewrite H.
    now destruct o. }
  rewrite Hlast. cbn [snd]. subst e1.
  repeat split; try reflexivity; now apply issued_app.
Qed.

(** X10.  [dropDesktopStashEntry] drops the first entry of the list just
    read whose sha is the one given, by the name it has in that list; it
    returns when the drop command exits 0 and raises the error of the
    command otherwise. *)
Theorem drop_found_entry (repository : Repository.t) (stashSha : jsstring)
        (e e1 : Env) (st : StashResult) (entry : IStashEntry.t)
        (r : ProcessResult) (w : World) :
  getStashes repository e = (Returned st, e1) ->
  bySha stashSha st = Some entry ->
  spawn (dropArgs entry) (Repository.path repository) (world e1) = (r, w) ->
  IStashEntry.stashSha entry = stashSha
  /\ (exists before after,
         desktopEntries st = before ++ entry :: after
         /\ Forall (fun x => IStashEntry.stashSha x <> stashSha) before)
  /\ (p_exitCode r = 0%Z ->
      dropDesktopStashEntry repository stashSha e
      = (Returned tt, invoked e1 (dropInv repository entry) w))
  /\ (p_exitCode r <> 0%Z ->
      dropDesktopStashEntry repository stashSha e
      = (Raised {| result := rejected r; args := dropArgs entry |},
         invoked e1 (dropInv repository entry) w)).
Proof.
  intros H Hf Hs. split; [apply (bySha_sha _ _ _ Hf)|]. split.
  - pose proof (find_first
      (fun x => str_eqb (IStashEntry.stashSha x) stashSha) (desktopEntries st))
      as Hfirst.
    unfold bySha in Hf. rewrite Hf in Hfirst.
    destruct Hfirst as [before [after [Hl [_ Hb]]]].
    exists before, after. split; [exact Hl|].
    eapply Forall_impl; [|exact Hb]. intros a Ha. now apply str_eqb_neq.
  - rewrite (drop_run _ stashSha _ _ _ H), Hf.
    rewrite (git_default _ _ _ _ _ _ Hs). split.
    + intros ->. reflexivity.
    + intros Hne. apply Z.eqb_neq in Hne. now rewrite Hne.
Qed.

(** X11.  Whatever the repository answers, [dropDesktopStashEntry]
    issues the log query and then, exactly when that query returns a list
    that holds the sha, one drop: the drop of the first entry with the
    sha in that list, by the name it has there.  It issues nothing else
    and logs nothing. *)
Theorem drop_issues_at_most_one_drop (repository : Repository.t)
        (stashSha : jsstring) (e : Env) :
  let after := snd (dropDesktopStashEntry repository stashSha e) in
  infos after = infos e
  /\ issued e after
     = logInv repository ::
       match fst (getStashes repository e) with
       | Returned st =>
           match bySha stashSha st with
           | Some entry => [dropInv repository entry]
           | None => []
           end
       | Raised _ => []
       end.
Proof.
  cbv zeta. destruct (drop_invocations repository stashSha e) as [Hi Hl].
  split; [exact Hi|]. now apply issued_app.
Qed.

Lemma pop_run (repository : Repository.t) (sha : jsstring)
      (e e1 : Env) (st : StashResult) (entry : IStashEntry.t)
      (r : ProcessResult) (w2 : World) :
  getStashes repository e = (Returned st, e1) ->
  bySha sha st = Some entry ->
  spawn (popArgs entry) (Repository.path repository) (world e1) = (r, w2) ->
  popStashEntry repository sha e =
  if Z.eqb (p_exitCode r) 1 then
    if Nat.ltb 0 (length (p_stderr r))
    then (Raised {| result := accepted r; args := popArgs entry |},
          invoked e1 (popInv repository entry) w2)
    else dropDesktopStashEntry repository sha
           (logged (invoked e1 (popInv repository entry) w2) (PopSoftSuccess 1))
  else if Z.eqb (p_exitCode r) 0 then
    (Returned tt, invoked e1 (popInv repository entry) w2)
  else
    (match gitError (rejected r) with
     | Some c =>
         if existsb (DugiteError_eqb c) [MergeConflicts]
         then Returned tt
         else Raised {| result := rejected r; args := popArgs entry |}
     | None => Raised {| result := rejected r; args := popArgs entry |}
     end,
     invoked e1 (popInv repository entry) w2).
Proof.
  intros H Hf Hs. unfold popStashEntry. unfold bind at 1.
  rewrite (matching_sha_run _ sha _ _ _ H), Hf. fold (popArgs entry).
  unfold bind at 1.
  destruct (Z.eqb (p_exitCode r) 1) eqn:E1.
  - rewrite (git_accepted _ _ _ _ _ _ _ Hs)
      by (cbn; rewrite E1; now rewrite orb_true_r).
    cbn [accepted exitCode stderr]. rewrite E1.
    apply Z.eqb_eq in E1. rewrite E1.
    destruct (Nat.ltb 0 (length (p_stderr r))); reflexivity.
  - destruct (Z.eqb (p_exitCode r) 0) eqn:E0.
    + rewrite (git_accepted _ _ _ _ _ _ _ Hs) by (cbn; now rewrite E0).
      cbn [accepted exitCode]. rewrite E1. reflexivity.
    + unfold git. rewrite Hs.
      cbn [successExitCodes expectedErrors existsb]. rewrite E0, E1.
      cbn [orb]. unfold rejected. cbn [gitError].
      destruct (match parseError (p_stderr r) with
                | Some c => Some c
                | None => parseError (p_stdout r)
                end) as [c|]; [|reflexivity].
      cbn [existsb]. rewrite !orb_false_r.
      destruct (DugiteError_eqb c MergeConflicts); cbn [exitCode];
        [rewrite E1|]; reflexivity.
Qed.

Lemma pop_env (repository : Repository.t) (sha : jsstring)
      (e e1 : Env) (st : StashResult) (entry : IStashEntry.t)
      (r : ProcessResult) (w2 : World) :
  getStashes repository e = (Returned st, e1) ->
  bySha sha st = Some entry ->
  spawn (popArgs entry) (Repository.path repository) (world e1) = (r, w2) ->
  (p_exitCode r = 1%Z /\ p_stderr r = []
   /\ popStashEntry repository sha e
      = dropDesktopStashEntry repository sha
          (logged (invoked e1 (popInv repository entry) w2) (PopSoftSuccess 1)))
  \/ snd (popStashEntry repository sha e)
     = invoked e1 (popInv repository entry) w2.
Proof.
  intros H Hf Hs. rewrite (pop_run _ _ _ _ _ _ _ _ H Hf Hs).
  destruct (Z.eqb (p_exitCode r) 1) eqn:E1.
  - apply Z.eqb_eq in E1. destruct (p_stderr r) as [|c s].
    + left. repeat split; assumption || reflexivity.
    + right. reflexivity.
  - right. destruct (Z.eqb (p_exitCode r) 0); reflexivity.
Qed.

(** X12.  When the pop command of a resolvable sha exits 0,
    [popStashEntry] returns having issued the log query and the pop only:
    no drop follows and nothing is logged. *)
Theorem pop_clean_exit (repository : Repository.t) (stashSha : jsstring)
        (e e1 : Env) (st : StashResult) (entry : IStashEntry.t)
        (r : ProcessResult) (w2 : World) :
  getStashes repository e = (Returned st, e1) ->
  bySha stashSha st = Some entry ->
  spawn (popArgs entry) (Repository.path repository) (world e1) = (r, w2) ->
  p_exitCode r = 0%Z ->
  popStashEntry repository stashSha e
  = (Returned tt, invoked e1 (popInv repository entry) w2)
  /\ issued e (invoked e1 (popInv repository entry) w2)
     = [logInv repository; popInv repository entry]
  /\ infos (invoked e1 (popInv repository entry) w2) = infos e.
Proof.
  intros H Hf Hs H0. split; [|split].
  - unfold popStashEntry. unfold bind at 1.
    rewrite (matching_sha_run _ stashSha _ _ _ H), Hf. fold (popArgs entry).
    unfold bind at 1.
    rewrite (git_accepted _ _ _ _ _ _ _ Hs) by (cbn; now rewrite H0).
    cbn [accepted exitCode]. rewrite H0. reflexivity.
  - apply issued_app. apply getStashes_env in H. subst e1.
    unfold invoked. cbn [invocations]. now rewrite <- app_assoc.
  - apply getStashes_env in H. subst e1. reflexivity.
Qed.

(** X13.  Whatever the repository answers, [popStashEntry] issues the
    log query; when the list it returns holds the sha, the pop of the
    first entry with the sha by its name in that list; and, only when
    that pop exits 1 with empty stderr, a second log query and the drop
    that [dropDesktopStashEntry] owes for the sha in the list read then.
    It issues nothing else. *)
Theorem pop_issues (repository : Repository.t) (stashSha : jsstring) (e : Env) :
  issued e (snd (popStashEntry repository stashSha e))
  = logInv repository ::
    match fst (getStashes repository e) with
    | Raised _ => []
    | Returned st =>
        match bySha stashSha st with
        | None => []
        | Some entry =>
            let e1 := snd (getStashes repository e) in
            let popped :=
              spawn (popArgs entry) (Repository.path repository) (world e1) in
            let e2 := logged (invoked e1 (popInv repository entry) (snd popped))
                             (PopSoftSuccess 1) in
            popInv repository entry ::
            if (Z.eqb (p_exitCode (fst popped)) 1
                && Nat.eqb (length (p_stderr (fst popped))) 0)%bool
            then logInv repository :: dropCommand repository stashSha e2
            else []
        end
    end.
Proof.
  destruct (getStashes repository e) as [[st|err] e1] eqn:H;
    pose proof (getStashes_env _ _ _ _ H) as He1; cbn [fst snd].
  - destruct (bySha stashSha st) as [entry|] eqn:Hf.
    + destruct (spawn (popArgs entry) (Repository.path repository) (world e1))
        as [r w2] eqn:Hs.
      cbv zeta. cbn [fst snd].
      rewrite (pop_run _ _ _ _ _ _ _ _ H Hf Hs).
      assert (Hpop : invocations (invoked e1 (popInv repository entry) w2)
                     = invocations e ++ [logInv repository; popInv repository entry]).
      { subst e1. unfold invoked. cbn [invocations]. now rewrite <- app_assoc. }
      destruct (Z.eqb (p_exitCode r) 1) eqn:E1.
      * destruct (p_stderr r) as [|c err]; cbn [length Nat.ltb Nat.leb Nat.eqb andb].
        -- destruct (drop_invocations repository stashSha
                       (logged (invoked e1 (popInv repository entry) w2)
                               (PopSoftSuccess 1))) as [_ Hl].
           apply issued_app. rewrite Hl. unfold logged at 1. cbn [invocations].
           rewrite Hpop, <- app_assoc. reflexivity.
        -- cbn [snd]. apply issued_app. exact Hpop.
      * cbn [andb].
        destruct (Z.eqb (p_exitCode r) 0); cbn [snd];
          apply issued_app; exact Hpop.
    + unfold popStashEntry. unfold bind at 1.
      rewrite (matching_sha_run _ stashSha _ _ _ H), Hf. cbn [snd ret].
      apply issued_app. now subst e1.
  - unfold popStashEntry. unfold bind at 1.
    rewrite (matching_sha_raise _ stashSha _ _ _ H). cbn [snd].
    apply issued_app. now subst e1.
Qed.

End SequencerProperties.

Section MoreSequencerProperties.
Context {C : Collaborators}.

(** X14.  When the commit-tree step of [moveStashEntry] fails, the error
    of that step reaches the caller and nothing else was issued: no
    store and no drop. *)
Theorem move_commit_tree_failure (repository : Repository.t)
        (entry : IStashEntry.t) (branchName : jsstring) (e : Env)
        (r1 : ProcessResult) (w1 : World) :
  spawn (commitTreeArgs entry branchName) (Repository.path repository) (world e)
  = (r1, w1) ->
  p_exitCode r1 <> 0%Z ->
  moveStashEntry repository entry branchName e
  = (Raised {| result := rejected r1; args := commitTreeArgs entry branchName |},
     invoked e (moveInv repository (commitTreeArgs entry branchName)) w1)
  /\ issued e (invoked e (moveInv repository (commitTreeArgs entry branchName)) w1)
     = [moveInv repository (commitTreeArgs entry branchName)].
Proof.
  intros Hs Hne. split; [|now apply issued_app].
  unfold moveStashEntry. fold (moveMessage branchName).
  fold (commitTreeArgs entry branchName). unfold bind at 1.
  rewrite (git_default _ _ _ _ _ _ Hs).
  apply Z.eqb_neq in Hne. now rewrite Hne.
Qed.

(** X15.  When commit-tree and store succeed, [moveStashEntry] ends as
    the drop of the original sha does in the repository the store left.
    The drop goes to the name the entry has in the list read after the
    store, not to the name carried by the entry passed in; when that list
    no longer holds the sha, the move returns without a drop. *)
Theorem move_drops_by_fresh_name (repository : Repository.t)
        (entry : IStashEntry.t) (branchName : jsstring) (e : Env)
        (r1 r2 : ProcessResult) (w1 w2 : World) :
  spawn (commitTreeArgs entry branchName) (Repository.path repository) (world e)
  = (r1, w1) ->
  p_exitCode r1 = 0%Z ->
  spawn (storeArgs branchName (p_stdout r1)) (Repository.path repository) w1
  = (r2, w2) ->
  p_exitCode r2 = 0%Z ->
  let ct := moveInv repository (commitTreeArgs entry branchName) in
  let store := moveInv repository (storeArgs branchName (p_stdout r1)) in
  let e2 := invoked (invoked e ct w1) store w2 in
  moveStashEntry repository entry branchName e
  = dropDesktopStashEntry repository (IStashEntry.stashSha entry) e2
  /\ forall st' e3,
      getStashes repository e2 = (Returned st', e3) ->
      (forall entry' r3 w3,
          bySha (IStashEntry.stashSha entry) st' = Some entry' ->
          spawn (dropArgs entry') (Repository.path repository) (world e3)
          = (r3, w3) ->
          p_exitCode r3 = 0%Z ->
          moveStashEntry repository entry branchName e
          = (Returned tt, invoked e3 (dropInv repository entry') w3)
          /\ issued e (invoked e3 (dropInv repository entry') w3)
             = [ct; store; logInv repository; dropInv repository entry'])
      /\ (bySha (IStashEntry.stashSha entry) st' = None ->
          moveStashEntry repository entry branchName e = (Returned tt, e3)
          /\ issued e e3 = [ct; store; logInv repository]).
Proof.
  intros Hs1 H1 Hs2 H2 ct store e2.
  assert (Hmove : moveStashEntry repository entry branchName e
                  = dropDesktopStashEntry repository (IStashEntry.stashSha entry) e2).
  { unfold moveStashEntry. fold (moveMessage branchName).
    fold (commitTreeArgs entry branchName). unfold bind at 1.
    rewrite (git_default _ _ _ _ _ _ Hs1), H1. cbn [Z.eqb accepted stdout].
    fold (storeArgs branchName (p_stdout r1)). unfold bind at 1.
    rewrite (git_default _ _ _ (invoked e ct w1) _ _ Hs2), H2.
    reflexivity. }
  split; [exact Hmove|].
  intros st' e3 H'. pose proof (getStashes_env _ _ _ _ H') as He3. split.
  - intros entry' r3 w3 Hf Hs3 H3. split.
    + rewrite Hmove, (drop_run _ _ _ _ _ H'), Hf.
      rewrite (git_default _ _ _ _ _ _ Hs3), H3. reflexivity.
    + apply issued_app. subst e3 e2. unfold invoked. cbn [invocations].
      now rewrite <- !app_assoc.
  - intros Hf. split.
    + rewrite Hmove, (drop_run _ _ _ _ _ H'), Hf. reflexivity.
    + apply issued_app. subst e3 e2. unfold invoked. cbn [invocations].
      now rewrite <- !app_assoc.
Qed.

(** X16.  When the file staging fails, [createDesktopStashEntry] raises
    the staging error and issues no invocation of its own: nothing is
    pushed. *)
Theorem create_staging_failure (repository : Repository.t)
        (branch : Branch.t + jsstring) (untracked : list FileChange) (e : Env)
        (err : GitError) (w1 : World) :
  stageFiles repository (map (fun x => withIncludeAll x true) untracked) (world e)
  = (Some err, w1) ->
  fst (createDesktopStashEntry repository branch untracked e) = Raised err
  /\ issued e (snd (createDesktopStashEntry repository branch untracked e)) = []
  /\ world (snd (createDesktopStashEntry repository branch untracked e)) = w1.
Proof.
  intros Hst.
  assert (Hrun : createDesktopStashEntry repository branch untracked e
                 = (Raised err, {| world := w1; invocations := invocations e;
                                   infos := infos e |})).
  { unfold createDesktopStashEntry. unfold bind at 1. unfold stage.
    now rewrite Hst. }
  rewrite Hrun. cbn [fst snd world]. repeat split.
  apply issued_app. cbn [invocations]. now rewrite app_nil_r.
Qed.

(** X17.  When the push exits with a code other than 0 and 1,
    [createDesktopStashEntry] raises whatever the command printed, the
    no-changes text included. *)
Theorem create_rejected_exit (repository : Repository.t)
        (branch : Branch.t + jsstring) (untracked : list FileChange) (e : Env)
        (w1 w2 : World) (r : ProcessResult) :
  stageFiles repository (map (fun x => withIncludeAll x true) untracked) (world e)
  = (None, w1) ->
  spawn (pushArgs (nameOfBranch branch)) (Repository.path repository) w1 = (r, w2) ->
  p_exitCode r <> 0%Z ->
  p_exitCode r <> 1%Z ->
  fst (createDesktopStashEntry repository branch untracked e)
  = Raised {| result := rejected r; args := pushArgs (nameOfBranch branch) |}.
Proof.
  intros Hst Hs H0 H1. rewrite (create_run _ _ _ _ _ _ _ Hst Hs).
  apply Z.eqb_neq in H0, H1. now rewrite H0, H1.
Qed.

(** X18.  [getStashedFiles] issues one show query for the sha and
    nothing else; on exit 0 it returns the files parsed from stdout with
    the sha and its first parent [sha^] as the two sides, and on any
    other exit code it raises. *)
Theorem stashed_files_query (F : Type)
        (parseLog : jsstring -> jsstring -> jsstring -> ParsedLog.t F)
        (repository : Repository.t) (stashSha : jsstring) (e : Env)
        (r : ProcessResult) (w : World) :
  spawn (showArgs stashSha) (Repository.path repository) (world e) = (r, w) ->
  (p_exitCode r = 0%Z ->
   getStashedFiles parseLog repository stashSha e
   = (Returned (ParsedLog.files
                  (parseLog (p_stdout r) stashSha (stashSha ++ js "^"))),
      invoked e (showInv repository stashSha) w))
  /\ (p_exitCode r <> 0%Z ->
      getStashedFiles parseLog repository stashSha e
      = (Raised {| result := rejected r; args := showArgs stashSha |},
         invoked e (showInv repository stashSha) w))
  /\ issued e (snd (getStashedFiles parseLog repository stashSha e))
     = [showInv repository stashSha]
  /\ isQuery (showInv repository stashSha) = true.
Proof.
  intros Hs.
  assert (Hrun : getStashedFiles parseLog repository stashSha e
                 = (if Z.eqb (p_exitCode r) 0
                    then Returned (ParsedLog.files
                           (parseLog (p_stdout r) stashSha (stashSha ++ js "^")))
                    else Raised {| result := rejected r; args := showArgs stashSha |},
                    invoked e (showInv repository stashSha) w)).
  { unfold getStashedFiles. fold (showArgs stashSha). unfold bind.
    rewrite (git_default _ _ _ _ _ _ Hs).
    destruct (Z.eqb (p_exitCode r) 0); reflexivity. }
  rewrite Hrun. split; [|split; [|split]].
  - intros ->. reflexivity.
  - intros Hne. apply Z.eqb_neq in Hne. now rewrite Hne.
  - cbn [snd]. now apply issued_app.
  - reflexivity.
Qed.

(** X19.  When the most recent record of the stash list carries the
    message [createDesktopStashEntry] writes for a branch, behind any
    text without the opening marker (the [On <branch>: ] that the tool
    puts in front, or nothing), [getLastDesktopStashEntryForBranch]
    returns that record's entry for the branch: its name, sha and tree,
    under that branch name. *)
Theorem created_entry_is_latest (repository : Repository.t) (e : Env)
        (r : ProcessResult) (w : World)
        (top : LogEntry.t) (older : list LogEntry.t) (prefix b : jsstring) :
  spawn logArgs (Repository.path repository) (world e) = (r, w) ->
  p_exitCode r = 0%Z ->
  parse (p_stdout r) = top :: older ->
  LogEntry.message top = prefix ++ createDesktopStashMessage b ->
  occurs (js "!!GitHub_Desktop<") prefix = false ->
  b <> [] ->
  no_line_terminator b = true ->
  exists entry,
    getLastDesktopStashEntryForBranch repository (inr b) e
    = (Returned (Some entry), invoked e (logInv repository) w)
    /\ IStashEntry.name entry = LogEntry.name top
    /\ IStashEntry.stashSha entry = LogEntry.stashSha top
    /\ IStashEntry.tree entry = LogEntry.tree top
    /\ IStashEntry.branchName entry = b.
Proof.
  intros Hs H0 Hp Hm Hfree Hne Hn.
  unfold getLastDesktopStashEntryForBranch, bind.
  rewrite (getStashes_run _ _ _ _ Hs), H0. cbn [Z.eqb nameOfBranch].
  rewrite catalog_entries, Hp. cbn [flat_map].
  assert (Hb : extractBranchFromMessage (LogEntry.message top) = Some b).
  { rewrite Hm, extract_scan.
    change (createDesktopStashMessage b) with (marker_open ++ b ++ [62%N]).
    rewrite scan_skip_marker_free by exact Hfree. now apply scan_here. }
  unfold pushIfDesktop at 1. rewrite Hb. cbn [app find IStashEntry.branchName].
  rewrite str_eqb_refl. eexists. split; [reflexivity|].
  repeat split.
Qed.

End MoreSequencerProperties.

(** * The further properties on the scripted repository *)

Section MoreWitnesses.
Import Scripted.
Import MoreScripts.
#[local] Existing Instance withTrailer.

Lemma catalog_keeps_stream_order_witness :
  let e := start withTrailer listsABA in
  exists st,
    getStashes repo e = (Returned st, invoked e (logInv repo) [])
    /\ map (fun x => (IStashEntry.name x, IStashEntry.stashSha x,
                      IStashEntry.tree x, Some (IStashEntry.branchName x)))
           (desktopEntries st)
       = map (fun x => (LogEntry.name x, LogEntry.stashSha x, LogEntry.tree x,
                        extractBranchFromMessage (LogEntry.message x)))
             (filter isOwned (@parse withTrailer logABA)).
Proof.
  intros e.
  exact (@catalog_keeps_stream_order withTrailer repo e (reply 0 logABA []) []
           eq_refl eq_refl).
Defined.

Lemma catalog_branch_names_witness :
  let e := start withTrailer listsABA in
  getStashes repo e = (Returned catalogABA, invoked e (logInv repo) [])
  /\ Forall (fun x => IStashEntry.branchName x <> []
                      /\ no_line_terminator (IStashEntry.branchName x) = true)
            (desktopEntries catalogABA).
Proof.
  intros e.
  exact (conj eq_refl
           (@catalog_branch_names withTrailer repo e
              (invoked e (logInv repo) []) catalogABA eq_refl)).
Defined.

(** With a parser that emits no trailing record the owned list is longer
    than the count: the bound of X7 is reached. *)
Lemma catalog_count_bound_witness :
  let e := start fullOnly listsABA in
  let st := {| desktopEntries := [entry0; entry1; entry2]; stashEntryCount := 2 |} in
  getStashes repo e = (Returned st, invoked e (@logInv fullOnly repo) [])
  /\ (Z.of_nat (length (desktopEntries st)) <= stashEntryCount st + 1)%Z
  /\ (-1 <= stashEntryCount st)%Z.
Proof.
  intros e st.
  exact (conj eq_refl
           (@catalog_count_bound fullOnly repo e
              (invoked e (@logInv fullOnly repo) []) st eq_refl)).
Defined.

Lemma catalog_parents_witness :
  let e := start withTrailer listsABA in
  exists st,
    getStashes repo e = (Returned st, invoked e (logInv repo) [])
    /\ map (fun x => join 32%N (IStashEntry.parents x)) (desktopEntries st)
       = map LogEntry.parents (filter isOwned (@parse withTrailer logABA))
    /\ Forall (fun x => Forall (fun p => existsb (N.eqb 32%N) p = false)
                               (IStashEntry.parents x)
                        /\ (IStashEntry.parents x = []
                            <-> join 32%N (IStashEntry.parents x) = []))
              (desktopEntries st).
Proof.
  intros e.
  exact (@catalog_parents withTrailer repo e (reply 0 logABA []) []
           eq_refl eq_refl).
Defined.

Lemma drop_found_entry_witness :
  let e := start withTrailer dropRefused in
  let refused := reply 1 [] (js "error: could not lock the stash reflog") in
  bySha (js "sha1") catalogABA = Some entry1
  /\ dropDesktopStashEntry repo (js "sha1") e
     = (Raised {| result := rejected refused; args := dropArgs entry1 |},
        invoked (invoked e (logInv repo) [refused]) (dropInv repo entry1) []).
Proof.
  intros e refused.
  assert (Hne : p_exitCode refused <> 0%Z) by discriminate.
  destruct (@drop_found_entry withTrailer repo (js "sha1") e
              (invoked e (logInv repo) [refused]) catalogABA entry1 refused []
              eq_refl eq_refl eq_refl)
    as [_ [_ [_ Hfail]]].
  exact (conj eq_refl (Hfail Hne)).
Defined.

Lemma pop_clean_exit_witness :
  let e := start withTrailer popApplies in
  let e1 := invoked e (logInv repo) [reply 0 [] []] in
  popStashEntry repo (js "sha1") e
  = (Returned tt, invoked e1 (popInv repo entry1) [])
  /\ issued e (invoked e1 (popInv repo entry1) [])
     = [logInv repo; popInv repo entry1]
  /\ infos (invoked e1 (popInv repo entry1) []) = infos e.
Proof.
  intros e e1.
  exact (@pop_clean_exit withTrailer repo (js "sha1") e e1 catalogABA entry1
           (reply 0 [] []) [] eq_refl eq_refl eq_refl eq_refl).
Defined.

Lemma move_commit_tree_failure_witness :
  let e := start withTrailer commitTreeFails in
  let failed := reply 128 [] (js "fatal: not a valid object name tree1") in
  fst (moveStashEntry repo entry1 (js "A") e)
  = Raised {| result := rejected failed; args := commitTreeArgs entry1 (js "A") |}.
Proof.
  intros e failed.
  assert (Hne : p_exitCode failed <> 0%Z) by discriminate.
  destruct (@move_commit_tree_failure withTrailer repo entry1 (js "A") e
              failed [] eq_refl Hne) as [Hrun _].
  rewrite Hrun. reflexivity.
Defined.

Lemma move_drops_by_fresh_name_witness :
  let e := start withTrailer moveSucceeds in
  IStashEntry.name entry1 = js "stash@{1}"
  /\ fst (moveStashEntry repo entry1 (js "A") e) = Returned tt
  /\ map inv_args (issued e (snd (moveStashEntry repo entry1 (js "A") e)))
     = [commitTreeArgs entry1 (js "A");
        storeArgs (js "A") (js "c0ffee" ++ [10%N]);
        logArgs;
        [js "stash"; js "drop"; js "stash@{2}"]].
Proof.
  intros e. split; [reflexivity|].
  pose (e2 := invoked (invoked e (moveInv repo (commitTreeArgs entry1 (js "A")))
                               [reply 0 [] []; reply 0 logAfterStore []; reply 0 [] []])
                      (moveInv repo (storeArgs (js "A") (js "c0ffee" ++ [10%N])))
                      [reply 0 logAfterStore []; reply 0 [] []]).
  destruct (@move_drops_by_fresh_name withTrailer repo entry1 (js "A") e
              (reply 0 (js "c0ffee" ++ [10%N]) []) (reply 0 [] [])
              [reply 0 [] []; reply 0 logAfterStore []; reply 0 [] []]
              [reply 0 logAfterStore []; reply 0 [] []]
              eq_refl eq_refl eq_refl eq_refl)
    as [_ Hfollow].
  destruct (Hfollow catalogAfterStore (invoked e2 (logInv repo) [reply 0 [] []])
                    eq_refl) as [Hfound _].
  destruct (Hfound entry1Shifted (reply 0 [] []) [] eq_refl eq_refl eq_refl)
    as [Hrun Hissued].
  rewrite Hrun. cbn [fst snd]. rewrite Hissued. split; reflexivity.
Defined.

Lemma create_staging_failure_witness :
  let e := start stagingFails nothingToStash in
  fst (@createDesktopStashEntry stagingFails repo (inr (js "A")) [tt] e)
  = Raised stagingError
  /\ issued e (snd (@createDesktopStashEntry stagingFails repo (inr (js "A")) [tt] e))
     = []
  /\ world (snd (@createDesktopStashEntry stagingFails repo (inr (js "A")) [tt] e))
     = nothingToStash.
Proof.
  intros e.
  exact (@create_staging_failure stagingFails repo (inr (js "A")) [tt] e
           stagingError nothingToStash eq_refl).
Defined.

Lemma create_rejected_exit_witness :
  let e := start withTrailer pushExitsTwo in
  let r := reply 2 (js "No local changes to save" ++ [10%N]) [] in
  fst (createDesktopStashEntry repo (inr (js "A")) [tt] e)
  = Raised {| result := rejected r; args := pushArgs (js "A") |}.
Proof.
  intros e r.
  assert (H0 : p_exitCode r <> 0%Z) by discriminate.
  assert (H1 : p_exitCode r <> 1%Z) by discriminate.
  exact (@create_rejected_exit withTrailer repo (inr (js "A")) [tt] e
           pushExitsTwo [] r eq_refl eq_refl H0 H1).
Defined.

Lemma stashed_files_query_witness :
  let e := start withTrailer [reply 0 (js ":100644 100644 M a.txt") []] in
  getStashedFiles echoParser repo (js "sha1") e
  = (Returned [(js ":100644 100644 M a.txt", js "sha1", js "sha1^")],
     invoked e (showInv repo (js "sha1")) []).
Proof.
  intros e.
  destruct (@stashed_files_query withTrailer _ echoParser repo (js "sha1") e
              (reply 0 (js ":100644 100644 M a.txt") []) [] eq_refl)
    as [Hok _].
  exact (Hok eq_refl).
Defined.

Lemma created_entry_is_latest_witness :
  let e := start withTrailer [reply 0 logAfterStore []] in
  occurs (js "!!GitHub_Desktop<") (js "On A: ") = false
  /\ exists entry,
      getLastDesktopStashEntryForBranch repo (inr (js "A")) e
      = (Returned (Some entry), invoked e (logInv repo) [])
      /\ IStashEntry.name entry = js "stash@{0}"
      /\ IStashEntry.stashSha entry = js "c0ffee"
      /\ IStashEntry.tree entry = js "tree1"
      /\ IStashEntry.branchName entry = js "A".
Proof.
  intros e.
  assert (Hne : js "A" <> []) by discriminate.
  exact (conj eq_refl
          (@created_entry_is_latest withTrailer repo e
             (reply 0 logAfterStore []) []
             {| LogEntry.name := js "stash@{0}"; LogEntry.stashSha := js "c0ffee";
                LogEntry.message := js "On A: !!GitHub_Desktop<A>";
                LogEntry.tree := js "tree1"; LogEntry.parents := js "p1" |}
             (tl (parseWithTrailer logAfterStore)) (js "On A: ") (js "A")
             eq_refl eq_refl eq_refl eq_refl eq_refl Hne eq_refl)).
Defined.

End MoreWitnesses.
